(** * leftysay: a shallow embedding of the rendering core of [src/main.rs]

    Covered: [render_bubble]/[pad_line] (bubble layout), the row budget
    computed in [main], [run_chafa] (fallback retry), [render_image]
    (cache lookup / store), [cache_key] and [enforce_cache_limit]
    (eviction), [is_supported_image], [read_messages], [load_config],
    [scan_packs] with [collect_images] and [pack_search_paths],
    [pick_index], [resolve_message], [resolve_image] and [find_chafa].
    The file system, the environment, the word-wrapping algorithm of
    [textwrap] (its outer loop and short-line path are modelled), [chafa], BLAKE3, TOML
    parsing and the random generator are parameters.  Rust strings are
    modelled as [String.string], i.e. as byte sequences, so
    [String.length] is Rust's [str::len]; the text of [messages.txt] is
    a list of Unicode scalar values. *)

From Stdlib Require Import List String Ascii Arith Lia ZArith NArith.
From Stdlib Require Import Sorting.Permutation Sorting.Sorted Bool Strings.Byte.
Import ListNotations.
Open Scope list_scope.

(* ------------------------------------------------------------------ *)
(** ** Bubble layout *)

Module Bubble.

Open Scope string_scope.

Definition DEFAULT_BUBBLE_MAX_WIDTH : nat := 60.

(** ["c".repeat(n)] for a one-character string. *)
Fixpoint repeat_char (c : ascii) (n : nat) : string :=
  match n with
  | O => EmptyString
  | S k => String c (repeat_char c k)
  end.

(** [fn pad_line(line, width)]: pad with spaces up to [width] bytes. *)
Definition pad_line (line : string) (width : nat) : string :=
  if Nat.ltb (String.length line) width
  then line ++ repeat_char " "%char (width - String.length line)
  else line.

(** [wrapped.iter().map(|line| line.len()).max().unwrap_or(0)] *)
Definition max_len (ws : list string) : nat :=
  fold_left (fun acc l => Nat.max acc (String.length l)) ws 0.

(** The frame characters chosen by the [match idx] of the multi-line case. *)
Definition frame_chars (idx n : nat) : string * string :=
  if Nat.eqb idx 0 then ("/", "\")
  else if Nat.eqb (idx + 1) n then ("\", "/")
  else ("|", "|").

(** [for (idx, line) in wrapped.iter().enumerate()] *)
Fixpoint frame_lines (n idx max_line_len : nat) (ws : list string) : list string :=
  match ws with
  | [] => []
  | line :: rest =>
      let '(lc, rc) := frame_chars idx n in
      (lc ++ " " ++ pad_line line max_line_len ++ " " ++ rc)
        :: frame_lines n (S idx) max_line_len rest
  end.

Section Layout.

(** [textwrap::wrap] is an external crate; the layout is studied for
    any wrapping function. *)
Variable wrap : string -> nat -> list string.

(** [fn render_bubble(text: &str, term_cols: usize) -> Vec<String>] *)
Definition render_bubble (text : string) (term_cols : nat) : list string :=
  let padding := 4 in
  if Nat.leb term_cols (padding + 10) then [text]
  else
    let bubble_width := Nat.min (term_cols - padding) DEFAULT_BUBBLE_MAX_WIDTH in
    let wrapped := wrap text bubble_width in
    match wrapped with
    | [] => []
    | w0 :: _ =>
        let max_line_len := max_len wrapped in
        let top := " " ++ repeat_char "_"%char (max_line_len + 2) in
        let body :=
          if Nat.eqb (List.length wrapped) 1
          then ["< " ++ pad_line w0 max_line_len ++ " >"]
          else frame_lines (List.length wrapped) 0 max_line_len wrapped in
        let bottom := " " ++ repeat_char "-"%char (max_line_len + 2) in
        top :: (body ++ [bottom])%list
    end.

End Layout.

(** The part of [textwrap::wrap] (an external crate) that the layout of
    short messages depends on: the text is split on ['\n'] and each piece
    is wrapped on its own; a piece shorter than the width (no indent is
    configured) is pushed as one line with its trailing spaces removed
    ([line.trim_end_matches(' ')]); a longer piece goes through the
    word-wrapping algorithm, left as the parameter [slow]. *)
Fixpoint split_newline (s : string) : list string :=
  match s with
  | EmptyString => [EmptyString]
  | String c t =>
      if Ascii.eqb c "010"%char then EmptyString :: split_newline t
      else match split_newline t with
           | [] => [String c EmptyString]
           | l :: r => String c l :: r
           end
  end.

(** [str::trim_end_matches(' ')] *)
Fixpoint trim_end_spaces (s : string) : string :=
  match s with
  | EmptyString => EmptyString
  | String c t =>
      let t' := trim_end_spaces t in
      if Ascii.eqb c " "%char && String.eqb t' EmptyString then EmptyString
      else String c t'
  end.

Definition textwrap_wrap (slow : string -> nat -> list string) (text : string) (width : nat)
    : list string :=
  flat_map (fun line =>
              if Nat.ltb (String.length line) width then [trim_end_spaces line]
              else slow line width)
           (split_newline text).

End Bubble.

(* ------------------------------------------------------------------ *)
(** ** Cache eviction: [fn enforce_cache_limit] *)

Module Evict.

(** What [DirEntry::metadata] yields: [m.len()] and [m.modified()]
    ([None] when the platform cannot report it).  Times are nanoseconds
    relative to the Unix epoch. *)
Record metadata := { md_len : N; md_modified : option Z }.

(** A directory entry: its file name and the result of [entry.metadata()]. *)
Record entry := { ent_name : string; ent_meta : option metadata }.

(** The cache directory as [enforce_cache_limit] finds it. *)
Inductive cache_dir :=
| DirMissing                     (* [!cache_dir.exists()] *)
| DirUnreadable                  (* [fs::read_dir] fails *)
| DirEntries (es : list entry).  (* the listing, in [read_dir] order *)

Inductive io_result := IoOk | IoErr.

(** [entry.metadata().ok().map(|m| m.len())] *)
Definition entry_len (e : entry) : option N :=
  match ent_meta e with Some m => Some (md_len m) | None => None end.

(** The number of bytes the listing takes, as an unbounded sum of the
    readable lengths (the quantity the eviction is meant to bound). *)
Definition total_size (es : list entry) : N :=
  fold_right (fun e acc => match entry_len e with Some l => l + acc | None => acc end)%N
             0%N es.

(** [u64] addition as [Iterator::sum] performs it in a release build
    (wrapping; a debug build panics instead). *)
Definition wrapping_add_u64 (a b : N) : N := ((a + b) mod 2 ^ 64)%N.

(** [let mut total_size: u64 = entries.iter()
       .filter_map(|entry| entry.metadata().ok().map(|m| m.len())).sum()] *)
Definition total_size_u64 (es : list entry) : N :=
  fold_left (fun acc e => match entry_len e with
                          | Some l => wrapping_add_u64 acc l
                          | None => acc
                          end) es 0%N.

(** The sort key [entry.metadata().and_then(|m| m.modified()).ok()]:
    an [Option<SystemTime>], ordered with [None] first. *)
Definition sort_key (e : entry) : option Z :=
  match ent_meta e with Some m => md_modified m | None => None end.

Definition key_leb (a b : option Z) : bool :=
  match a, b with
  | None, _ => true
  | Some _, None => false
  | Some x, Some y => Z.leb x y
  end.

(** [sort_by_key] is a stable sort; a stable insertion sort computes the
    same permutation ([e] goes before the entries of equal key that
    follow it in the listing). *)
Fixpoint insert_by_key (e : entry) (es : list entry) : list entry :=
  match es with
  | [] => [e]
  | x :: rest =>
      if key_leb (sort_key e) (sort_key x) then e :: x :: rest
      else x :: insert_by_key e rest
  end.

Fixpoint sort_by_key (es : list entry) : list entry :=
  match es with
  | [] => []
  | e :: rest => insert_by_key e (sort_by_key rest)
  end.

Section Remove.

(** Whether [fs::remove_file] succeeds for a given file name. *)
Variable remove_ok : string -> bool.

(** [fs::remove_file(entry.path())] on the directory contents. *)
Definition remove_file (name : string) (st : list entry) : option (list entry) :=
  if remove_ok name
  then Some (filter (fun x => negb (String.eqb (ent_name x) name)) st)
  else None.

(** The [for entry in entries] loop, threading [total_size] and the
    directory contents. *)
Fixpoint evict_loop (max_bytes total : N) (es st : list entry) : list entry :=
  match es with
  | [] => st
  | e :: rest =>
      if (total <=? max_bytes)%N then st
      else
        let meta := entry_len e in
        match remove_file (ent_name e) st with
        | Some st' =>
            let total' := match meta with
                          | Some len => (total - len)%N   (* saturating_sub *)
                          | None => total
                          end in
            evict_loop max_bytes total' rest st'
        | None => evict_loop max_bytes total rest st
        end
  end.

(** [fn enforce_cache_limit(cache_dir, max_bytes) -> Result<()>]: the
    result and the directory afterwards. *)
Definition enforce_cache_limit (d : cache_dir) (max_bytes : N) : io_result * cache_dir :=
  match d with
  | DirMissing => (IoOk, d)
  | DirUnreadable => (IoErr, d)
  | DirEntries es =>
      let total := total_size_u64 es in
      if (total <=? max_bytes)%N then (IoOk, d)
      else (IoOk, DirEntries (evict_loop max_bytes total (sort_by_key es) es))
  end.

End Remove.

(** A regular file entry with readable metadata, for examples. *)
Definition ent (n : string) (len : N) (t : Z) : entry :=
  {| ent_name := n; ent_meta := Some {| md_len := len; md_modified := Some t |} |}.

End Evict.

(* ------------------------------------------------------------------ *)
(** ** The renderer selectors: [enum ChafaFormat], [enum ChafaColors] *)

Module ChafaFormat.
Inductive t := Auto | Unicode | Kitty | Iterm2 | Sixel.

Definition eqb (a b : t) : bool :=
  match a, b with
  | Auto, Auto | Unicode, Unicode | Kitty, Kitty | Iterm2, Iterm2 | Sixel, Sixel => true
  | _, _ => false
  end.

(** [fn as_arg(self) -> &'static str] *)
Definition as_arg (f : t) : string :=
  match f with
  | Auto => "auto"
  | Unicode => "symbols"
  | Kitty => "kitty"
  | Iterm2 => "iterm"
  | Sixel => "sixels"
  end%string.
End ChafaFormat.

Module ChafaColors.
Inductive t := Auto | Truecolor | C256 | C16.

Definition eqb (a b : t) : bool :=
  match a, b with
  | Auto, Auto | Truecolor, Truecolor | C256, C256 | C16, C16 => true
  | _, _ => false
  end.

Definition as_arg (c : t) : string :=
  match c with
  | Auto => "auto"
  | Truecolor => "full"
  | C256 => "256"
  | C16 => "16"
  end%string.
End ChafaColors.

(* ------------------------------------------------------------------ *)
(** ** Invoking the renderer: [fn run_chafa] *)

Module Chafa.

(** [std::process::Output]; [stdout]/[stderr] after [from_utf8_lossy]. *)
Record output := { status_success : bool; stdout : string; stderr : string }.

(** The two ways [run_chafa] fails: [anyhow!("chafa failed: {last_err}")]
    and the [?] on a process that could not be spawned ("running chafa"). *)
Inductive chafa_error :=
| ChafaFailed (last_err : string)
| RunningChafa.

Inductive chafa_result :=
| ChafaOk (payload : string)
| ChafaErr (e : chafa_error).

Section Run.

(** [run_chafa_once] for a fixed image, size and animate flag: the
    process output, or [None] when the process cannot be started. *)
Variable run_chafa_once : ChafaFormat.t -> ChafaColors.t -> option output.

(** [fn run_chafa]: the result, together with the list of the
    [(format, colors)] pairs [run_chafa_once] was called with. *)
Definition run_chafa (format : ChafaFormat.t) (colors : ChafaColors.t)
    : chafa_result * list (ChafaFormat.t * ChafaColors.t) :=
  match run_chafa_once format colors with
  | None => (ChafaErr RunningChafa, [(format, colors)])
  | Some out =>
      if status_success out then (ChafaOk (stdout out), [(format, colors)])
      else
        let last_err := stderr out in
        let fallback_format :=
          match format with ChafaFormat.Auto => ChafaFormat.Unicode | f => f end in
        let fallback_colors :=
          match colors with ChafaColors.Auto => ChafaColors.Truecolor | c => c end in
        if negb (ChafaFormat.eqb fallback_format format)
           || negb (ChafaColors.eqb fallback_colors colors)
        then
          let calls := [(format, colors); (fallback_format, fallback_colors)] in
          match run_chafa_once fallback_format fallback_colors with
          | None => (ChafaErr RunningChafa, calls)
          | Some retry =>
              if status_success retry then (ChafaOk (stdout retry), calls)
              else (ChafaErr (ChafaFailed (stderr retry)), calls)
          end
        else (ChafaErr (ChafaFailed last_err), [(format, colors)])
  end.

End Run.

(** A renderer that always exits non-zero, naming the format it got. *)
Definition failing_chafa (f : ChafaFormat.t) (c : ChafaColors.t) : option output :=
  Some {| status_success := false; stdout := ""; stderr := ChafaFormat.as_arg f |}%string.

End Chafa.

(* ------------------------------------------------------------------ *)
(** ** Row budget: lines 212-215 of [main]

    [max_height_ratio] is an [f32].  A finite non-negative [f32] is
    [fm * 2^fe] with a 24-bit significand; products are rounded to
    nearest, ties to even.  Terminal rows come from [terminal_size] as a
    [u16] (or the fallback 24), so [term_rows as f32] is exact, the
    product never overflows and never leaves the normal/exact range. *)

Module RowBudget.

Open Scope Z_scope.

Record f32 := { fm : Z; fe : Z }.

(** Round [m * 2^e] ([m >= 0]) to a 24-bit significand, nearest-even. *)
Definition round24 (m e : Z) : f32 :=
  if m <? 2 ^ 24 then {| fm := m; fe := e |}
  else
    let k := Z.log2 m + 1 - 24 in
    let q := m / 2 ^ k in
    let r := m mod 2 ^ k in
    let half := 2 ^ (k - 1) in
    let q' := if (half <? r) || ((r =? half) && Z.odd q) then q + 1 else q in
    {| fm := q'; fe := e + k |}.

(** [n as f32] for an unsigned integer. *)
Definition f32_of_usize (n : N) : f32 := round24 (Z.of_N n) 0.

(** [a * b] in [f32]. *)
Definition f32_mul (a b : f32) : f32 := round24 (fm a * fm b) (fe a + fe b).

(** [floor] of the exact value [m * 2^e], for [m >= 0]. *)
Definition zfloor (m e : Z) : Z :=
  if 0 <=? e then m * 2 ^ e else m / 2 ^ (- e).

(** [x.floor() as usize] for a finite [x >= 0] ([as] saturates). *)
Definition floor_as_usize (x : f32) : N :=
  Z.to_N (Z.min (zfloor (fm x) (fe x)) (2 ^ 64 - 1)).

(** [let max_image_rows = ((term_rows as f32) * max_height_ratio).floor() as usize;
     let remaining_rows = term_rows.saturating_sub(bubble_height + 1);
     let image_rows = min(max_image_rows, remaining_rows).max(1);] *)
Definition image_rows (term_rows bubble_height : N) (max_height_ratio : f32) : N :=
  let max_image_rows := floor_as_usize (f32_mul (f32_of_usize term_rows) max_height_ratio) in
  let remaining_rows := (term_rows - (bubble_height + 1))%N in
  N.max (N.min max_image_rows remaining_rows) 1.

(** The row budget in the words of the claim: [floor(totalRows * ratio)]
    of the exact product. *)
Definition image_rows_spec (total_rows bubble_line_count : N) (ratio : f32) : N :=
  let capped := Z.to_N (zfloor (Z.of_N total_rows * fm ratio) (fe ratio)) in
  let remaining := Z.to_N (Z.max 0 (Z.of_N total_rows - Z.of_N bubble_line_count - 1)) in
  N.max 1 (N.min capped remaining).

(** A ratio in (0, 1]: a positive [f32] value at most 1. *)
Definition ratio_ok (r : f32) : Prop :=
  0 < fm r < 2 ^ 24 /\ -149 <= fe r <= 0 /\ fm r <= 2 ^ (- fe r).

(** [0.55f32] (the default) and [0.7f32]: nearest [f32] to the decimals. *)
Definition ratio_055 : f32 := {| fm := 9227469; fe := -24 |}.
Definition ratio_07 : f32 := {| fm := 11744051; fe := -24 |}.

End RowBudget.

(* ------------------------------------------------------------------ *)
(** ** The render pipeline: [fn render_image] *)

Module Render.

(** The [anyhow] errors [render_image] can return, named by the call
    whose [?] propagates them. *)
Inductive render_error :=
| ReadingImageMetadata                (* [cache_key] *)
| CacheIo (op : string)               (* an [fs::...] call on the cache *)
| Renderer (e : Chafa.chafa_error).   (* [run_chafa] *)

(** A state-and-error monad over the file system state [S]. *)
Definition M (S A : Type) : Type := S -> (A + render_error) * S.

Definition ret {S A} (a : A) : M S A := fun s => (inl a, s).
Definition fail {S A} (e : render_error) : M S A := fun s => (inr e, s).
Definition bind {S A B} (m : M S A) (k : A -> M S B) : M S B :=
  fun s => match m s with
           | (inl a, s') => k a s'
           | (inr e, s') => (inr e, s')
           end.

Notation "'let*' x := m 'in' k" := (bind m (fun x => k))
  (at level 200, x name, m at level 100, k at level 200).

(** [fs] operations used by [render_image], for a fixed image, size and
    renderer: each returns [None] on an I/O error. *)
Record fs_ops (S : Type) := {
  cache_dir : string;                                (* [cache_dir()] *)
  image_key : S -> option string;                    (* [cache_key(...)] *)
  path_exists : S -> string -> bool;                 (* [Path::exists] *)
  read_to_string : S -> string -> option string;     (* [fs::read_to_string] *)
  write : S -> string -> string -> option S;         (* [fs::write] *)
  create_dir_all : S -> string -> option S;          (* [fs::create_dir_all] *)
  file_create : S -> string -> option S;             (* [fs::File::create] *)
  write_all : S -> string -> string -> option S;     (* [file.write_all] *)
  enforce_limit : S -> N -> option S;                (* [enforce_cache_limit] *)
  chafa : S -> Chafa.chafa_result                    (* [run_chafa(...)] *)
}.
Arguments cache_dir {S}. Arguments image_key {S}. Arguments path_exists {S}.
Arguments read_to_string {S}. Arguments write {S}. Arguments create_dir_all {S}.
Arguments file_create {S}. Arguments write_all {S}. Arguments enforce_limit {S}.
Arguments chafa {S}.

(** [struct RenderOptions] (the fields [render_image] reads itself). *)
Record RenderOptions := { cache_enabled : bool; cache_max_mb : N }.

Section Pipeline.
Context {S : Type} (ops : fs_ops S).

Definition lift_io {A} (op : string) (f : S -> option (A * S)) : M S A :=
  fun s => match f s with Some (a, s') => (inl a, s') | None => (inr (CacheIo op), s) end.

Definition io_unit (op : string) (f : S -> option S) : M S unit :=
  lift_io op (fun s => match f s with Some s' => Some (tt, s') | None => None end).

Definition CACHE_FILE_EXT : string := "txt".

(** [cache_dir.join(format!("{cache_key}.{CACHE_FILE_EXT}"))] *)
Definition cache_path (dir key : string) : string :=
  (dir ++ "/" ++ key ++ "." ++ CACHE_FILE_EXT)%string.

(** [options.cache_max_mb * 1024 * 1024] in [u64] (wrapping). *)
Definition max_bytes (o : RenderOptions) : N :=
  ((cache_max_mb o * 1024 * 1024) mod 2 ^ 64)%N.

(** [fn render_image(chafa, image, options) -> Result<String>] *)
Definition render_image (o : RenderOptions) : M S string :=
  let dir := cache_dir ops in
  let* key := lift_io "cache_key"%string
                (fun s => match image_key ops s with Some k => Some (k, s) | None => None end) in
  let path := cache_path dir key in
  fun s =>
  if cache_enabled o && path_exists ops s path then
    (let* contents := lift_io "read_to_string"%string
                        (fun s => match read_to_string ops s path with
                                  | Some c => Some (c, s) | None => None end) in
     (* Touch file for LRU by rewriting. *)
     let* _ := io_unit "write"%string (fun s => write ops s path contents) in
     ret contents) s
  else
    (let* output := (fun s => match chafa ops s with
                              | Chafa.ChafaOk out => (inl out, s)
                              | Chafa.ChafaErr e => (inr (Renderer e), s)
                              end) in
     (if cache_enabled o then
        let* _ := io_unit "create_dir_all"%string (fun s => create_dir_all ops s dir) in
        let* _ := io_unit "create"%string (fun s => file_create ops s path) in
        let* _ := io_unit "write_all"%string (fun s => write_all ops s path output) in
        let* _ := io_unit "enforce_cache_limit"%string (fun s => enforce_limit ops s (max_bytes o)) in
        ret output
      else ret output)) s.

End Pipeline.

(** A file system with one image and one cache entry name, whose
    operations succeed or fail as the flags say. *)
Definition flag_ops (entry_exists read_ok touch_ok mkdir_ok create_ok write_ok evict_ok : bool)
    (render : Chafa.chafa_result) : fs_ops unit := {|
  cache_dir := "/cache";
  image_key := fun _ => Some "k";
  path_exists := fun _ _ => entry_exists;
  read_to_string := fun _ _ => if read_ok then Some "CACHED" else None;
  write := fun _ _ _ => if touch_ok then Some tt else None;
  create_dir_all := fun _ _ => if mkdir_ok then Some tt else None;
  file_create := fun _ _ => if create_ok then Some tt else None;
  write_all := fun _ _ _ => if write_ok then Some tt else None;
  enforce_limit := fun _ _ => if evict_ok then Some tt else None;
  chafa := fun _ => render
|}%string.

(** Caching on, with the default 64 MiB budget. *)
Definition opts_on : RenderOptions := {| cache_enabled := true; cache_max_mb := 64 |}.

End Render.

(* ------------------------------------------------------------------ *)
(** ** The cache key: [fn cache_key] *)

Module CacheKey.

Open Scope Z_scope.

(** [fs::Metadata] as far as [cache_key] reads it: [modified()], in
    nanoseconds relative to the Unix epoch ([None]: unsupported). *)
Record metadata := { modified : option Z }.

(** [.duration_since(UNIX_EPOCH).ok().map(|d| d.as_secs()).unwrap_or(0)] *)
Definition mtime_secs (m : metadata) : Z :=
  match modified m with
  | Some t => if 0 <=? t then t / 10 ^ 9 else 0
  | None => 0
  end.

(** [(z mod 256) as u8]. *)
Definition byte_of_Z (z : Z) : byte :=
  match Byte.of_N (Z.to_N (z mod 256)) with Some b => b | None => x00 end.

(** [to_le_bytes] of an unsigned [8 * n]-bit integer. *)
Fixpoint le_bytes (n : nat) (z : Z) : list byte :=
  match n with
  | O => []
  | S k => byte_of_Z z :: le_bytes k (z / 256)
  end.

(** [blake3::Hasher]: the bytes passed to [update] so far. *)
Definition hasher := list byte.
Definition update (h : hasher) (bs : list byte) : hasher := h ++ bs.

Section Key.

(** [Hasher::finalize().to_hex()], as a function of all the bytes fed to
    the hasher (BLAKE3 is an external crate). *)
Variable finalize_hex : list byte -> string.

(** [fs::metadata] on the current file system. *)
Variable fs_metadata : string -> option metadata.

(** [fn cache_key(image, cols, rows, format, colors, animate) -> Result<String>];
    [usize] is 64 bits. *)
Definition cache_key (image : string) (cols rows : Z) (format : ChafaFormat.t)
    (colors : ChafaColors.t) (animate : bool) : option string :=
  match fs_metadata image with
  | None => None      (* "reading image metadata" *)
  | Some meta =>
      let mtime := mtime_secs meta in
      let h := update [] (list_byte_of_string image) in
      let h := update h (le_bytes 8 mtime) in
      let h := update h (le_bytes 8 cols) in
      let h := update h (le_bytes 8 rows) in
      let h := update h (list_byte_of_string (ChafaFormat.as_arg format)) in
      let h := update h (list_byte_of_string (ChafaColors.as_arg colors)) in
      let h := update h [if animate then x01 else x00] in
      Some (finalize_hex h)
  end.

End Key.

(** A stand-in digest: the hashed bytes themselves, as a string. *)
Definition raw_digest (bs : list byte) : string := string_of_list_byte bs.

End CacheKey.


(* ------------------------------------------------------------------ *)
(** ** Paths: [Path::join], [Path::file_name], [Path::extension] (Unix) *)

Module Str.

Open Scope string_scope.

(** [s.split(sep)] for a one-byte separator: the pieces between the
    separators, one (empty) piece for the empty string. *)
Fixpoint split_on (sep : ascii) (s : string) : list string :=
  match s with
  | EmptyString => [EmptyString]
  | String c t =>
      let r := split_on sep t in
      if Ascii.eqb c sep then EmptyString :: r
      else match r with
           | x :: rs => String c x :: rs
           | [] => [String c EmptyString]
           end
  end.

Fixpoint last_opt {A : Type} (l : list A) : option A :=
  match l with
  | [] => None
  | [x] => Some x
  | _ :: t => last_opt t
  end.

Definition starts_with_slash (s : string) : bool :=
  match s with
  | String c _ => Ascii.eqb c "/"%char
  | EmptyString => false
  end.

Definition ends_with_slash (s : string) : bool :=
  match last_opt (list_ascii_of_string s) with
  | Some c => Ascii.eqb c "/"%char
  | None => false
  end.

(** [dir.join(file)] ([PathBuf::push]): an absolute [file] replaces
    [dir]; otherwise a ['/'] goes in between unless [dir] is empty or
    already ends with one. *)
Definition join (dir file : string) : string :=
  if starts_with_slash file then file
  else if String.eqb dir "" then file
  else if ends_with_slash dir then dir ++ file
  else dir ++ "/" ++ file.

End Str.

(* ------------------------------------------------------------------ *)
(** ** [fn is_supported_image] *)

Module ImagePath.

Import Str.
Open Scope string_scope.

(** [Path::file_name]: the last component.  [components()] drops empty
    components (repeated or trailing ['/']) and ["."] ones; a last
    component [".."], or none at all (["/"], ["."], [""]), gives [None]. *)
Definition file_name (p : string) : option string :=
  match last_opt (filter (fun x => negb (String.eqb x "") && negb (String.eqb x "."))
                         (split_on "/"%char p)) with
  | Some x => if String.eqb x ".." then None else Some x
  | None => None
  end.

(** [rsplitn(2, '.')] of the name: the part before the last ['.'] and
    the part after it, [None] without a dot. *)
Fixpoint rsplit_dot (s : string) : option (string * string) :=
  match s with
  | EmptyString => None
  | String c t =>
      match rsplit_dot t with
      | Some (b, a) => Some (String c b, a)
      | None => if Ascii.eqb c "."%char then Some (EmptyString, t) else None
      end
  end.

(** [Path::extension] ([rsplit_file_at_dot]): none for [".."], for a
    name without a dot, and for a name whose only dot is its first byte
    ([".png"] is a hidden file, not an extension). *)
Definition extension (p : string) : option string :=
  match file_name p with
  | None => None
  | Some f =>
      if String.eqb f ".." then None
      else match rsplit_dot f with
           | Some (b, a) => if String.eqb b "" then None else Some a
           | None => None
           end
  end.

Definition ascii_lower (c : ascii) : ascii :=
  let n := nat_of_ascii c in
  if Nat.leb 65 n && Nat.leb n 90 then ascii_of_nat (n + 32) else c.

Fixpoint to_lower (s : string) : string :=
  match s with
  | EmptyString => EmptyString
  | String c t => String (ascii_lower c) (to_lower t)
  end.

(** [fn is_supported_image(path)]:
    [path.extension().and_then(OsStr::to_str)], then [to_lowercase]
    matched against ["png" | "jpg" | "jpeg" | "gif"].  Paths are byte
    strings.  [to_str] fails only on bytes that are not UTF-8, and no
    non-ASCII character lowercases to a string of the ASCII letters
    [a], [e], [f], [g], [i], [j], [n], [p] (the one non-ASCII character
    whose lowercase is ASCII is the Kelvin sign, giving [k]); so
    lowercasing the ASCII letters and keeping every other byte gives the
    same answer. *)
Definition is_supported_image (path : string) : bool :=
  match extension path with
  | None => false
  | Some ext =>
      let l := to_lower ext in
      String.eqb l "png" || String.eqb l "jpg" || String.eqb l "jpeg" || String.eqb l "gif"
  end.

Definition supported_exts : list string := ["png"; "jpg"; "jpeg"; "gif"].

End ImagePath.

(* ------------------------------------------------------------------ *)
(** ** [fn read_messages] *)

Module Messages.

Open Scope Z_scope.

(** Text as Unicode scalar values ([read_to_string] only yields valid
    UTF-8; anything else is a read error). *)
Definition text := list Z.

(** [char::is_whitespace]: ASCII space and [\t \n \x0b \x0c \r], and the
    other [White_Space] characters. *)
Definition is_whitespace (c : Z) : bool :=
  ((9 <=? c) && (c <=? 13)) || (c =? 32) || (c =? 133) || (c =? 160)
  || (c =? 5760) || ((8192 <=? c) && (c <=? 8202)) || (c =? 8232)
  || (c =? 8233) || (c =? 8239) || (c =? 8287) || (c =? 12288).

Fixpoint trim_start (l : text) : text :=
  match l with
  | [] => []
  | c :: t => if is_whitespace c then trim_start t else l
  end.

Definition trim_end (l : text) : text := rev (trim_start (rev l)).

(** [str::trim]. *)
Definition trim (l : text) : text := trim_start (trim_end l).

(** [str::split_inclusive('\n')]: each piece keeps its ['\n']; there is
    no empty piece after a final ['\n'] (and none for the empty text). *)
Fixpoint split_inclusive_nl (l : text) : list text :=
  match l with
  | [] => []
  | c :: t =>
      if c =? 10 then [c] :: split_inclusive_nl t
      else match split_inclusive_nl t with
           | x :: rs => (c :: x) :: rs
           | [] => [[c]]
           end
  end.

(** The line ending removed by [str::lines]: ['\n'], then a ['\r']
    only if it stood before that ['\n']. *)
Definition strip_line (x : text) : text :=
  match rev x with
  | n :: r =>
      if n =? 10 then
        match r with
        | c :: r' => if c =? 13 then rev r' else rev r
        | [] => []
        end
      else x
  | [] => x
  end.

(** [str::lines]. *)
Definition lines (l : text) : list text := map strip_line (split_inclusive_nl l).

(** [contents.lines().map(|line| line.trim()).filter(|line| !line.is_empty())] *)
Definition messages_of (contents : text) : list text :=
  filter (fun x => negb (match x with [] => true | _ => false end)) (map trim (lines contents)).

(** [str::split('\n')]: the pieces between the newlines. *)
Fixpoint split_nl (l : text) : list text :=
  match l with
  | [] => [[]]
  | c :: t =>
      if c =? 10 then [] :: split_nl t
      else match split_nl t with
           | x :: rs => (c :: x) :: rs
           | [] => [[c]]
           end
  end.

(** The file [messages.txt] as [exists] and [read_to_string] see it. *)
Inductive msg_file := MsgMissing | MsgUnreadable | MsgContents (contents : text).

(** [fn read_messages]: no file or a read error give no message. *)
Definition read_messages_file (f : msg_file) : list text :=
  match f with
  | MsgMissing => []
  | MsgUnreadable => []
  | MsgContents contents => messages_of contents
  end.

(** An ASCII string as text. *)
Definition text_of_string (s : string) : text :=
  map (fun c => Z.of_nat (nat_of_ascii c)) (list_ascii_of_string s).

End Messages.

(* ------------------------------------------------------------------ *)
(** ** [fn load_config] and [struct Cli] *)

Module Config.

Import RowBudget.
Open Scope Z_scope.

(** An [f32]: a finite value [(-1)^neg * fm * 2^fe], an infinity, or NaN. *)
Inductive f32v := Fin (neg : bool) (x : f32) | Inf (neg : bool) | NaN.

(** The finite encodings of [f32]: 24-bit significand, exponents of
    the subnormal to the largest binade. *)
Definition f32_valid (x : f32) : Prop :=
  0 <= fm x < 2 ^ 24 /\ -149 <= fe x <= 104.

(** [v <= 0.0] (false on NaN; [-0.0 <= 0.0]). *)
Definition le_zero (v : f32v) : bool :=
  match v with
  | Fin neg x => neg || (fm x =? 0)
  | Inf neg => neg
  | NaN => false
  end.

(** [v > 1.0] (false on NaN). *)
Definition gt_one (v : f32v) : bool :=
  match v with
  | Fin false x => if 0 <=? fe x then 1 <? fm x * 2 ^ fe x else 2 ^ (- fe x) <? fm x
  | Fin true _ => false
  | Inf neg => negb neg
  | NaN => false
  end.

Definition DEFAULT_MAX_HEIGHT_RATIO : f32v := Fin false ratio_055.
Definition DEFAULT_CACHE_MAX_MB : N := 64.

Record Config := {
  enabled : bool;
  default_pack : string;
  format : ChafaFormat.t;
  colors : ChafaColors.t;
  max_height_ratio : f32v;
  bubble_style : string;
  cache : bool;
  animate : bool;
  cache_max_mb : N
}.

Definition default_config : Config := {|
  enabled := true;
  default_pack := "default"%string;
  format := ChafaFormat.Auto;
  colors := ChafaColors.Auto;
  max_height_ratio := DEFAULT_MAX_HEIGHT_RATIO;
  bubble_style := "classic"%string;
  cache := true;
  animate := false;
  cache_max_mb := DEFAULT_CACHE_MAX_MB
|}.

Definition set_ratio (c : Config) (r : f32v) : Config :=
  {| enabled := enabled c; default_pack := default_pack c; format := format c;
     colors := colors c; max_height_ratio := r; bubble_style := bubble_style c;
     cache := cache c; animate := animate c; cache_max_mb := cache_max_mb c |}.

Definition set_cache_max_mb (c : Config) (mb : N) : Config :=
  {| enabled := enabled c; default_pack := default_pack c; format := format c;
     colors := colors c; max_height_ratio := max_height_ratio c;
     bubble_style := bubble_style c; cache := cache c; animate := animate c;
     cache_max_mb := mb |}.

(** What [load_config] finds: no project directories, no
    [config.toml], a read error, a TOML error, or the parsed [Config]
    (missing keys already filled from [Config::default()] by
    [#[serde(default)]]). *)
Inductive config_source :=
  | NoProjectDirs
  | NoConfigFile
  | ReadFailed
  | ParseFailed
  | Parsed (c : Config).

Inductive config_error := ReadingConfig | ParsingConfig.

(** [fn load_config() -> Result<Config>]. *)
Definition load_config (src : config_source) : Config + config_error :=
  match src with
  | NoProjectDirs => inl default_config
  | NoConfigFile => inl default_config
  | ReadFailed => inr ReadingConfig
  | ParseFailed => inr ParsingConfig
  | Parsed config =>
      let config :=
        if le_zero (max_height_ratio config) || gt_one (max_height_ratio config)
        then set_ratio config DEFAULT_MAX_HEIGHT_RATIO else config in
      let config :=
        if (cache_max_mb config =? 0)%N
        then set_cache_max_mb config DEFAULT_CACHE_MAX_MB else config in
      inl config
  end.

End Config.

(* ------------------------------------------------------------------ *)
(** ** Packs: [scan_packs], [collect_images], [pick_index],
       [resolve_message], [resolve_image] *)

Module Packs.

Import Str.
Open Scope string_scope.

Record PackMeta := {
  name : string;
  version : string;
  license : string;
  description : string;
  images_dir : string
}.

Record Pack := {
  meta : PackMeta;
  images : list string;
  messages : list Messages.text
}.

(** A [walkdir::DirEntry] that was read without error. *)
Record dir_entry := {
  de_path : string;
  de_file_name : string;
  de_is_file : bool
}.

Section Scan.

(** [Path::exists]. *)
Variable path_exists : string -> bool.
(** [WalkDir::new(root)] (with [max_depth(d)] for [Some d]), the entries
    it yields without error, in order. *)
Variable walkdir : option nat -> string -> list dir_entry.
(** [path.parent().unwrap_or(path)]. *)
Variable parent_or_self : string -> string.
(** [fn read_pack_meta]: reading and parsing [pack.toml] ([None]: error). *)
Variable read_pack_meta : string -> option PackMeta.
(** The state of a [messages.txt] file. *)
Variable msg_file : string -> Messages.msg_file.

(** [fn collect_images(pack_root, images_dir)]. *)
Definition collect_images (pack_root images_dir : string) : list string :=
  let dir := join pack_root images_dir in
  if negb (path_exists dir) then []
  else map de_path (filter (fun e => de_is_file e && ImagePath.is_supported_image (de_path e))
                           (walkdir None dir)).

(** [fn read_messages(pack_root)]. *)
Definition read_messages (pack_root : string) : list Messages.text :=
  let path := join pack_root "messages.txt" in
  if negb (path_exists path) then []
  else Messages.read_messages_file (msg_file path).

(** The entries visited by the two loops of [scan_packs]. *)
Definition walk_entries (bases : list string) : list dir_entry :=
  flat_map (fun base => if path_exists base then walkdir (Some 3) base else []) bases.

(** The inner loop of [scan_packs]: [seen] is the set of names pushed so
    far; a [read_pack_meta] error ends the whole scan ([?]). *)
Fixpoint scan (seen : list string) (es : list dir_entry) : option (list Pack) :=
  match es with
  | [] => Some []
  | entry :: es' =>
      if String.eqb (de_file_name entry) "pack.toml" then
        let pack_root := parent_or_self (de_path entry) in
        match read_pack_meta (de_path entry) with
        | None => None
        | Some m =>
            if existsb (String.eqb (name m)) seen then scan seen es'
            else match collect_images pack_root (images_dir m) with
                 | [] => scan seen es'
                 | imgs =>
                     option_map
                       (cons {| meta := m; images := imgs; messages := read_messages pack_root |})
                       (scan (name m :: seen) es')
                 end
        end
      else scan seen es'
  end.

(** [fn scan_packs() -> Result<Vec<Pack>>] over the directories of
    [pack_search_paths()]. *)
Definition scan_packs (bases : list string) : option (list Pack) :=
  scan [] (walk_entries bases).

(** [fn pack_search_paths()] for the target [os], with the environment
    variables [LEFTYSAY_PACKS_DIR] and [HOMEBREW_PREFIX] and the data
    directory of [ProjectDirs]. *)
Definition pack_search_paths (os : string) (packs_dir_env homebrew_prefix data_dir : option string)
    : list string :=
  match packs_dir_env with Some extra => [extra] | None => [] end
  ++ match data_dir with Some d => [join d "packs"] | None => [] end
  ++ (if String.eqb os "macos" then
        filter path_exists
          (map (fun prefix => join prefix "share/leftysay/packs")
               (match homebrew_prefix with Some p => [p] | None => [] end
                ++ ["/opt/homebrew"; "/usr/local"]))
      else if String.eqb os "linux" then ["/usr/share/leftysay/packs"] else [])
  ++ (if path_exists "packs" then ["packs"] else []).

End Scan.

(** [anyhow::Result] of the selection functions, with indexing out of
    range as a panic. *)
Inductive result (A : Type) := Ok (a : A) | Err (msg : string) | Panic.
Arguments Ok {A} a.
Arguments Err {A} msg.
Arguments Panic {A}.

Definition index {A : Type} (l : list A) (i : nat) : result A :=
  match nth_error l i with Some x => Ok x | None => Panic end.

Definition DEFAULT_MESSAGE : Messages.text := Messages.text_of_string "Hello from leftysay!".

(** [struct Cli]. *)
Record Cli := {
  text : option Messages.text;
  image : option string;
  pack : option string;
  list' : bool;
  doctor : bool;
  no_bubble : bool;
  seed : option N;
  cli_format : option ChafaFormat.t;
  cli_colors : option ChafaColors.t;
  cli_max_height_ratio : option Config.f32v;
  cli_animate : bool
}.

Section Select.

(** [rng.gen_range(0..len)] of the [StdRng] seeded from [seed] (from
    entropy for [None]). *)
Variable gen_range : option N -> nat -> nat.

(** [fn pick_index(len, seed)]. *)
Definition pick_index (len : nat) (seed : option N) : result nat :=
  if Nat.eqb len 0 then Err "no images available"
  else Ok (gen_range seed len).

Definition find_pack (packs : list Pack) (pack_name : string) : option Pack :=
  find (fun p => String.eqb (name (meta p)) pack_name) packs.

Definition pack_name (cli : Cli) (config : Config.Config) : string :=
  match pack cli with Some n => n | None => Config.default_pack config end.

(** [fn resolve_message]. *)
Definition resolve_message (cli : Cli) (packs : list Pack) (config : Config.Config)
    (seed : option N) : result Messages.text :=
  match text cli with
  | Some t => Ok t
  | None =>
      match find_pack packs (pack_name cli config) with
      | Some p =>
          match messages p with
          | [] => Ok DEFAULT_MESSAGE
          | _ =>
              match pick_index (List.length (messages p)) seed with
              | Ok idx => index (messages p) idx
              | Err e => Err e
              | Panic => Panic
              end
          end
      | None => Ok DEFAULT_MESSAGE
      end
  end.

(** [fn resolve_image]. *)
Definition resolve_image (cli : Cli) (packs : list Pack) (config : Config.Config)
    (seed : option N) : result string :=
  match image cli with
  | Some path => Ok path
  | None =>
      let pack_name := pack_name cli config in
      match find_pack packs pack_name with
      | None => Err ("pack not found: " ++ pack_name)
      | Some p =>
          match pick_index (List.length (images p)) seed with
          | Ok idx => index (images p) idx
          | Err e => Err e
          | Panic => Panic
          end
      end
  end.

End Select.

End Packs.

(* ------------------------------------------------------------------ *)
(** ** [fn find_chafa] (Unix: candidate ["chafa"], [PATH] split on [':']) *)

Module FindChafa.

Import Str.
Open Scope string_scope.

Definition install_hint (os : string) : string :=
  if String.eqb os "linux" then
    "Install: sudo apt install chafa (Debian/Ubuntu) or sudo pacman -S chafa (Arch)"
  else if String.eqb os "macos" then "Install: brew install chafa"
  else "Install chafa from your package manager".

Definition candidate : string := "chafa".

Section Find.

(** [Path::is_file]. *)
Variable is_file : string -> bool.

(** [for dir in std::env::split_paths(&paths) { let full = dir.join(candidate); if full.is_file() { return Ok(full); } }] *)
Fixpoint search (dirs : list string) : option string :=
  match dirs with
  | [] => None
  | dir :: ds =>
      let full := join dir candidate in
      if is_file full then Some full else search ds
  end.

(** [fn find_chafa() -> Result<PathBuf>], from the values of
    [LEFTYSAY_CHAFA] and [PATH] and the target [os]. *)
Definition find_chafa (os : string) (chafa_env path_env : option string) : string + string :=
  match chafa_env with
  | Some path => inl path
  | None =>
      match match path_env with
            | Some paths => search (split_on ":"%char paths)
            | None => None
            end with
      | Some full => inl full
      | None => inr ("leftysay requires chafa. " ++ install_hint os)
      end
  end.

End Find.

End FindChafa.

(* ================================================================== *)
(** * Properties *)

Module BubbleFacts.
Import Bubble.
Open Scope string_scope.

Lemma length_repeat_char (c : ascii) (n : nat) :
  String.length (repeat_char c n) = n.
Proof. induction n as [|n IH]; simpl; congruence. Qed.

Lemma length_app (s t : string) :
  String.length (s ++ t) = String.length s + String.length t.
Proof. induction s as [|c s IH]; simpl; congruence. Qed.

Lemma length_pad_line (l : string) (m : nat) :
  String.length l <= m -> String.length (pad_line l m) = m.
Proof.
  intros Hle. unfold pad_line.
  destruct (Nat.ltb_spec (String.length l) m).
  - rewrite length_app, length_repeat_char. lia.
  - lia.
Qed.

Lemma fold_max_ge (ws : list string) (acc : nat) :
  acc <= fold_left (fun a l => Nat.max a (String.length l)) ws acc.
Proof.
  revert acc. induction ws as [|w ws IH]; intros acc; simpl; [lia|].
  specialize (IH (Nat.max acc (String.length w))). lia.
Qed.

Lemma fold_max_bound (ws : list string) (acc : nat) (l : string) :
  In l ws -> String.length l <= fold_left (fun a l => Nat.max a (String.length l)) ws acc.
Proof.
  revert acc. induction ws as [|w ws IH]; intros acc Hin; simpl in *; [contradiction|].
  destruct Hin as [->|Hin]; [|now apply IH].
  pose proof (fold_max_ge ws (Nat.max acc (String.length l))). lia.
Qed.

Lemma fold_max_attained (ws : list string) (acc : nat) :
  fold_left (fun a l => Nat.max a (String.length l)) ws acc = acc \/
  exists l, In l ws /\
    fold_left (fun a l => Nat.max a (String.length l)) ws acc = String.length l.
Proof.
  revert acc. induction ws as [|w ws IH]; intros acc; simpl; [now left|].
  destruct (IH (Nat.max acc (String.length w))) as [E|[l [Hin E]]].
  - rewrite E. destruct (Nat.max_spec acc (String.length w)) as [[_ ->]|[_ ->]].
    + right. exists w. auto.
    + now left.
  - right. exists l. auto.
Qed.

Lemma max_len_bound (ws : list string) (l : string) :
  In l ws -> String.length l <= max_len ws.
Proof. apply fold_max_bound. Qed.

Lemma max_len_attained (ws : list string) :
  ws <> [] -> exists l, In l ws /\ String.length l = max_len ws.
Proof.
  intros Hne. unfold max_len.
  destruct (fold_max_attained ws 0) as [E|H]; [|destruct H as [l [? ?]]; eauto].
  destruct ws as [|w ws]; [congruence|].
  exists w. split; [now left|].
  pose proof (fold_max_bound (w :: ws) 0 w (or_introl eq_refl)). lia.
Qed.

Lemma frame_lines_shape (n idx m : nat) (ws : list string) :
  (forall l, In l ws -> String.length l <= m) ->
  List.length (frame_lines n idx m ws) = List.length ws /\
  Forall (fun s => String.length s = m + 4) (frame_lines n idx m ws).
Proof.
  revert idx. induction ws as [|w ws IH]; intros idx Hb; simpl; [auto|].
  destruct (frame_chars idx n) as [lc rc] eqn:Ef.
  assert (Hlr : String.length lc = 1 /\ String.length rc = 1).
  { unfold frame_chars in Ef.
    destruct (Nat.eqb idx 0); [injection Ef as <- <-; auto|].
    destruct (Nat.eqb (idx + 1) n); injection Ef as <- <-; auto. }
  destruct (IH (S idx)) as [Hl Hf]; [intros; apply Hb; now right|].
  split; [simpl; congruence|].
  constructor; [|exact Hf].
  rewrite length_app. simpl. rewrite length_app, (length_pad_line w m) by (apply Hb; now left). simpl. lia.
Qed.

(** C8: when [term_cols <= padding + 10] (padding is 4) the layout is
    exactly the message itself, as a single undecorated line. *)
Theorem render_bubble_narrow (wrap : string -> nat -> list string)
    (text : string) (term_cols : nat) :
  term_cols <= 4 + 10 -> render_bubble wrap text term_cols = [text].
Proof.
  intros H. unfold render_bubble.
  destruct (Nat.leb_spec term_cols (4 + 10)); [reflexivity | lia].
Qed.

Lemma render_bubble_narrow_witness :
  10 <= 4 + 10 /\
  render_bubble (fun t _ => [t]) "hello world" 10 = ["hello world"].
Proof.
  split; [lia | apply (render_bubble_narrow (fun t _ => [t]) "hello world" 10); lia].
Defined.

Definition all_spaces (s : string) : bool :=
  forallb (fun c => Ascii.eqb c " "%char) (list_ascii_of_string s).

Lemma split_newline_spaces (s : string) :
  all_spaces s = true -> split_newline s = [s].
Proof.
  unfold all_spaces. induction s as [|c t IH]; simpl; [reflexivity|].
  intros H. apply andb_prop in H as [Hc Ht].
  apply Ascii.eqb_eq in Hc. subst c. rewrite (IH Ht). reflexivity.
Qed.

Lemma trim_end_spaces_spaces (s : string) :
  all_spaces s = true -> trim_end_spaces s = EmptyString.
Proof.
  unfold all_spaces. induction s as [|c t IH]; simpl; [reflexivity|].
  intros H. apply andb_prop in H as [Hc Ht].
  apply Ascii.eqb_eq in Hc. subst c. rewrite (IH Ht). reflexivity.
Qed.

Lemma split_newline_nonempty (s : string) : split_newline s <> [].
Proof.
  induction s as [|c t IH]; simpl; [discriminate|].
  destruct (Ascii.eqb c "010"%char); [discriminate|].
  destruct (split_newline t); discriminate.
Qed.

Lemma textwrap_wrap_nonempty (slow : string -> nat -> list string) (text : string) (width : nat) :
  (forall l w, slow l w <> []) -> textwrap_wrap slow text width <> [].
Proof.
  intros Hs. unfold textwrap_wrap.
  pose proof (split_newline_nonempty text) as Hn.
  destruct (split_newline text) as [|l rest]; [contradiction|].
  simpl. destruct (Nat.ltb (String.length l) width); [discriminate|].
  specialize (Hs l width). destruct (slow l width); [contradiction | discriminate].
Qed.

Lemma textwrap_wrap_spaces (slow : string -> nat -> list string) (text : string) (width : nat) :
  all_spaces text = true -> String.length text < width ->
  textwrap_wrap slow text width = [EmptyString].
Proof.
  intros Hsp Hlt. unfold textwrap_wrap. rewrite (split_newline_spaces text Hsp). simpl.
  destruct (Nat.ltb_spec (String.length text) width); [|lia].
  rewrite (trim_end_spaces_spaces text Hsp). reflexivity.
Qed.

Lemma render_bubble_length (wrap : string -> nat -> list string) (text : string) (cols : nat) :
  4 + 10 < cols ->
  List.length (render_bubble wrap text cols)
  = match wrap text (Nat.min (cols - 4) DEFAULT_BUBBLE_MAX_WIDTH) with
    | [] => 0
    | ws => List.length ws + 2
    end.
Proof.
  intros Hc. unfold render_bubble.
  destruct (Nat.leb_spec cols (4 + 10)); [lia|].
  destruct (wrap text (Nat.min (cols - 4) DEFAULT_BUBBLE_MAX_WIDTH)) as [|w0 rest] eqn:Hw;
    [reflexivity|].
  destruct (Nat.eqb_spec (List.length (w0 :: rest)) 1) as [E|E].
  - cbn [List.length]. rewrite List.length_app. simpl in *. lia.
  - destruct (frame_lines_shape (List.length (w0 :: rest)) 0 (max_len (w0 :: rest)) (w0 :: rest)
                (fun l H => max_len_bound (w0 :: rest) l H)) as [Hl _].
    cbn [List.length] in Hl |- *. rewrite List.length_app, Hl. simpl. lia.
Qed.

(** C10 (as stated): the empty message and a message of spaces do not give
    an empty layout.  [textwrap::wrap] wraps each of them to one empty
    line (whatever its word-wrapping algorithm does, which these short
    inputs never reach), and [render_bubble] draws the empty box. *)
Lemma render_bubble_blank_box :
  render_bubble (textwrap_wrap (fun _ _ => [])) "" 20 = [" __"; "<  >"; " --"] /\
  render_bubble (textwrap_wrap (fun _ _ => [])) "   " 20 = [" __"; "<  >"; " --"].
Proof. split; reflexivity. Qed.

(** C10 (amended): [textwrap::wrap] yields at least one line for every
    message (one or more per ['\n']-separated piece, given that its
    word-wrapping algorithm returns at least one line), so on a terminal
    wider than [padding + 10] the early return for an empty wrapping is
    never taken: the layout has the two borders and one line per wrapped
    line.  The empty message and messages of spaces only (shorter than
    the bubble width) render the three-line empty box. *)
Theorem render_bubble_never_empty (slow : string -> nat -> list string)
    (text : string) (term_cols : nat) :
  4 + 10 < term_cols ->
  (forall l w, slow l w <> []) ->
  textwrap_wrap slow text (Nat.min (term_cols - 4) DEFAULT_BUBBLE_MAX_WIDTH) <> [] /\
  List.length (render_bubble (textwrap_wrap slow) text term_cols)
    = List.length (textwrap_wrap slow text (Nat.min (term_cols - 4) DEFAULT_BUBBLE_MAX_WIDTH)) + 2 /\
  (all_spaces text = true -> String.length text < Nat.min (term_cols - 4) DEFAULT_BUBBLE_MAX_WIDTH ->
   render_bubble (textwrap_wrap slow) text term_cols = [" __"; "<  >"; " --"]).
Proof.
  intros Hc Hs.
  pose proof (textwrap_wrap_nonempty slow text (Nat.min (term_cols - 4) DEFAULT_BUBBLE_MAX_WIDTH) Hs)
    as Hne.
  split; [exact Hne|]. split.
  - rewrite (render_bubble_length _ _ _ Hc).
    destruct (textwrap_wrap slow text (Nat.min (term_cols - 4) DEFAULT_BUBBLE_MAX_WIDTH));
      [contradiction | reflexivity].
  - intros Hsp Hlt. unfold render_bubble.
    destruct (Nat.leb_spec term_cols (4 + 10)); [lia|].
    rewrite (textwrap_wrap_spaces slow text _ Hsp Hlt). reflexivity.
Qed.

Lemma render_bubble_never_empty_witness :
  4 + 10 < 40 /\
  (forall (l : string) (w : nat), (fun l _ => [l]) l w <> []) /\
  List.length (render_bubble (textwrap_wrap (fun l _ => [l])) "hello" 40) = 3 /\
  render_bubble (textwrap_wrap (fun l _ => [l])) "  " 40 = [" __"; "<  >"; " --"].
Proof.
  assert (Hs : forall (l : string) (w : nat), (fun l _ => [l]) l w <> []) by (intros; discriminate).
  split; [lia|]. split; [exact Hs|].
  destruct (render_bubble_never_empty (fun l _ => [l]) "hello" 40 ltac:(lia) Hs) as [_ [Hl _]].
  split; [rewrite Hl; reflexivity|].
  destruct (render_bubble_never_empty (fun l _ => [l]) "  " 40 ltac:(lia) Hs) as [_ [_ Hb]].
  apply Hb; [reflexivity | unfold DEFAULT_BUBBLE_MAX_WIDTH; simpl; lia].
Defined.

(** C9 (as stated): every emitted line has the same length.  It fails:
    with one wrapped line "hi" the borders are 5 bytes long and the
    content line "< hi >" is 6. *)
Lemma render_bubble_widths_differ :
  render_bubble (fun t _ => [t]) "hi" 20 = [" ____"; "< hi >"; " ----"] /\
  ~ (forall l1 l2, In l1 (render_bubble (fun t _ => [t]) "hi" 20) ->
                   In l2 (render_bubble (fun t _ => [t]) "hi" 20) ->
                   String.length l1 = String.length l2).
Proof.
  split; [reflexivity|].
  intros H. specialize (H " ____" "< hi >").
  vm_compute in H. discriminate H; auto.
Qed.

(** C9 (amended): on a wide terminal with a non-empty wrapping [ws], the
    box width [m] is the byte length of the longest wrapped line; the top
    underscore border and the bottom dash border are [m + 3] bytes long
    (a leading space and [m + 2] border characters) and each of the
    [length ws] framed content lines is [m + 4] bytes long. *)
Theorem render_bubble_widths (wrap : string -> nat -> list string)
    (text : string) (term_cols : nat) (ws : list string) :
  4 + 10 < term_cols ->
  wrap text (Nat.min (term_cols - 4) DEFAULT_BUBBLE_MAX_WIDTH) = ws ->
  ws <> [] ->
  (forall l, In l ws -> String.length l <= max_len ws) /\
  (exists l, In l ws /\ String.length l = max_len ws) /\
  exists top body bottom,
    render_bubble wrap text term_cols = top :: body ++ [bottom] /\
    top = " " ++ repeat_char "_" (max_len ws + 2) /\
    bottom = " " ++ repeat_char "-" (max_len ws + 2) /\
    String.length top = max_len ws + 3 /\
    String.length bottom = max_len ws + 3 /\
    List.length body = List.length ws /\
    Forall (fun s => String.length s = max_len ws + 4) body.
Proof.
  intros Hw Hws Hne.
  split; [intros; now apply max_len_bound|].
  split; [now apply max_len_attained|].
  unfold render_bubble.
  destruct (Nat.leb_spec term_cols (4 + 10)); [lia|].
  rewrite Hws. destruct ws as [|w0 rest] eqn:Ews; [congruence|].
  rewrite <- Ews.
  set (m := max_len ws).
  assert (Hb : forall l, In l ws -> String.length l <= m)
    by (intros; now apply max_len_bound).
  eexists _, _, _. split; [reflexivity|].
  do 2 (split; [reflexivity|]).
  split; [simpl; rewrite length_repeat_char; lia|].
  split; [simpl; rewrite length_repeat_char; lia|].
  destruct (Nat.eqb_spec (List.length ws) 1) as [E1|E1].
  - subst ws. destruct rest; [|simpl in E1; lia].
    split; [reflexivity|]. constructor; [|constructor].
    simpl. rewrite length_app, length_pad_line by (apply Hb; now left).
    simpl. lia.
  - apply frame_lines_shape. exact Hb.
Qed.

Lemma render_bubble_widths_witness :
  4 + 10 < 20 /\
  (fun t (_ : nat) => [t]) "hi" (Nat.min (20 - 4) DEFAULT_BUBBLE_MAX_WIDTH) = ["hi"] /\
  ["hi"] <> [] /\
  exists top body bottom,
    render_bubble (fun t _ => [t]) "hi" 20 = top :: body ++ [bottom] /\
    String.length top = max_len ["hi"] + 3 /\
    Forall (fun s => String.length s = max_len ["hi"] + 4) body.
Proof.
  split; [lia|]. split; [reflexivity|]. split; [discriminate|].
  destruct (render_bubble_widths (fun t _ => [t]) "hi" 20 ["hi"]) as
    [_ [_ (top & body & bottom & E & _ & _ & Ht & _ & _ & Hf)]];
    [lia | reflexivity | discriminate |].
  exists top, body, bottom. auto.
Defined.

End BubbleFacts.

Module EvictFacts.
Import Evict.



Lemma insert_by_key_perm (e : entry) (l : list entry) :
  Permutation (insert_by_key e l) (e :: l).
Proof.
  induction l as [|x l IH]; simpl; [auto|].
  destruct (key_leb (sort_key e) (sort_key x)); [auto|].
  rewrite IH. apply perm_swap.
Qed.

Lemma sort_by_key_perm (es : list entry) : Permutation (sort_by_key es) es.
Proof.
  induction es as [|e es IH]; simpl; [auto|].
  rewrite insert_by_key_perm. now constructor.
Qed.







Lemma total_size_u64_acc (es : list entry) (acc : N) :
  fold_left (fun acc e => match entry_len e with
                          | Some l => wrapping_add_u64 acc l
                          | None => acc
                          end) es (acc mod 2 ^ 64)%N
  = ((acc + total_size es) mod 2 ^ 64)%N.
Proof.
  revert acc. induction es as [|e es IH]; intros acc; simpl.
  - now rewrite N.add_0_r.
  - destruct (entry_len e) as [l|].
    + unfold wrapping_add_u64. rewrite N.Div0.add_mod_idemp_l.
      rewrite IH. f_equal. unfold total_size. simpl. lia.
    + rewrite IH. reflexivity.
Qed.

(** The code's wrapping sum is the true total modulo [2^64]. *)
Lemma total_size_u64_mod (es : list entry) :
  total_size_u64 es = (total_size es mod 2 ^ 64)%N.
Proof.
  unfold total_size_u64. change 0%N with (0 mod 2 ^ 64)%N at 1.
  rewrite total_size_u64_acc. reflexivity.
Qed.

Lemma total_size_u64_exact (es : list entry) :
  (total_size es < 2 ^ 64)%N -> total_size_u64 es = total_size es.
Proof. intros H. rewrite total_size_u64_mod. now apply N.mod_small. Qed.





End EvictFacts.

Module ChafaFacts.
Import Chafa.

(** C2: after a failed first invocation (non-zero exit), if the format
    or the colors was [Auto], exactly one retry is made, with format
    [Auto] replaced by [Unicode] and colors [Auto] by [Truecolor]; if the
    retry also fails, its standard error is the one reported.  If
    neither was [Auto], no retry is made and the original standard error
    is reported. *)
Theorem run_chafa_fallback
    (run_chafa_once : ChafaFormat.t -> ChafaColors.t -> option output)
    (format : ChafaFormat.t) (colors : ChafaColors.t) (out : output) :
  run_chafa_once format colors = Some out ->
  status_success out = false ->
  let ff := match format with ChafaFormat.Auto => ChafaFormat.Unicode | f => f end in
  let fc := match colors with ChafaColors.Auto => ChafaColors.Truecolor | c => c end in
  ((format = ChafaFormat.Auto \/ colors = ChafaColors.Auto) ->
     snd (run_chafa run_chafa_once format colors) = [(format, colors); (ff, fc)] /\
     (forall retry, run_chafa_once ff fc = Some retry -> status_success retry = false ->
        fst (run_chafa run_chafa_once format colors) = ChafaErr (ChafaFailed (stderr retry)))) /\
  (format <> ChafaFormat.Auto -> colors <> ChafaColors.Auto ->
     run_chafa run_chafa_once format colors = (ChafaErr (ChafaFailed (stderr out)), [(format, colors)])).
Proof.
  intros Hrun Hfail ff fc. unfold run_chafa. rewrite Hrun, Hfail. split.
  - intros Hauto.
    assert (Hretry : negb (ChafaFormat.eqb ff format) || negb (ChafaColors.eqb fc colors) = true).
    { destruct Hauto as [->| ->]; subst ff fc; simpl; [reflexivity|].
      destruct format; reflexivity. }
    fold ff fc. rewrite Hretry. split.
    + destruct (run_chafa_once ff fc) as [r|]; [destruct (status_success r)|]; reflexivity.
    + intros retry Hr Hrf. rewrite Hr, Hrf. reflexivity.
  - intros Hf Hc. fold ff fc.
    assert (Hno : negb (ChafaFormat.eqb ff format) || negb (ChafaColors.eqb fc colors) = false).
    { subst ff fc. destruct format; [congruence| | | |]; destruct colors; try congruence;
      reflexivity. }
    now rewrite Hno.
Qed.

Lemma run_chafa_fallback_witness :
  failing_chafa ChafaFormat.Auto ChafaColors.Auto
    = Some {| status_success := false; stdout := ""; stderr := "auto" |}%string /\
  run_chafa failing_chafa ChafaFormat.Auto ChafaColors.Auto
    = (ChafaErr (ChafaFailed "symbols"),
       [(ChafaFormat.Auto, ChafaColors.Auto); (ChafaFormat.Unicode, ChafaColors.Truecolor)])%string /\
  (let ff := ChafaFormat.Unicode in let fc := ChafaColors.Truecolor in
   ((ChafaFormat.Auto = ChafaFormat.Auto \/ ChafaColors.Auto = ChafaColors.Auto) ->
     snd (run_chafa failing_chafa ChafaFormat.Auto ChafaColors.Auto)
       = [(ChafaFormat.Auto, ChafaColors.Auto); (ff, fc)] /\
     (forall retry, failing_chafa ff fc = Some retry -> status_success retry = false ->
        fst (run_chafa failing_chafa ChafaFormat.Auto ChafaColors.Auto)
          = ChafaErr (ChafaFailed (stderr retry)))) /\
   (ChafaFormat.Auto <> ChafaFormat.Auto -> ChafaColors.Auto <> ChafaColors.Auto ->
     run_chafa failing_chafa ChafaFormat.Auto ChafaColors.Auto
       = (ChafaErr (ChafaFailed "auto"%string), [(ChafaFormat.Auto, ChafaColors.Auto)]))).
Proof.
  split; [reflexivity|]. split; [reflexivity|].
  exact (run_chafa_fallback failing_chafa ChafaFormat.Auto ChafaColors.Auto
           {| status_success := false; stdout := ""; stderr := "auto" |}%string
           eq_refl eq_refl).
Defined.

End ChafaFacts.

Module RowBudgetFacts.
Import RowBudget.
Open Scope Z_scope.

Lemma div_succ_le (q d : Z) : 0 < d -> (q + 1) / d <= q / d + 1.
Proof.
  intros Hd.
  transitivity ((q + 1 * d) / d).
  - apply Z.div_le_mono; lia.
  - rewrite Z.div_add by lia. lia.
Qed.

(** Rounding a product whose exponent stays negative moves its floor by
    at most one, upwards or not at all. *)
Lemma round24_floor (m e : Z) :
  0 <= m -> e <= 0 ->
  (2 ^ 24 <= m -> Z.log2 m + 1 - 24 + e < 0) ->
  zfloor m e <= zfloor (fm (round24 m e)) (fe (round24 m e)) <= zfloor m e + 1.
Proof.
  intros Hm He Hlog. unfold round24.
  destruct (Z.ltb_spec m (2 ^ 24)) as [Hs|Hb]; simpl; [lia|].
  specialize (Hlog Hb).
  assert (Hl : 24 <= Z.log2 m).
  { apply Z.log2_le_pow2; lia. }
  set (k := Z.log2 m + 1 - 24). set (j := - (e + k)).
  assert (Hk : 1 <= k) by (subst k; lia).
  assert (Hj : 0 < j) by (subst j; lia).
  assert (Hfl : zfloor m e = m / 2 ^ k / 2 ^ j).
  { unfold zfloor. destruct (Z.leb_spec 0 e); [lia|].
    rewrite Z.div_div by (apply Z.pow_nonzero || apply Z.pow_pos_nonneg; lia).
    rewrite <- Z.pow_add_r by lia. f_equal. f_equal. subst j; lia. }
  assert (Hfl' : forall q, zfloor q (e + k) = q / 2 ^ j).
  { intros q. unfold zfloor. destruct (Z.leb_spec 0 (e + k)); [lia|].
    subst j. reflexivity. }
  rewrite Hfl, Hfl'.
  assert (Hpj : 0 < 2 ^ j) by (apply Z.pow_pos_nonneg; lia).
  set (q := m / 2 ^ k).
  destruct ((2 ^ (k - 1) <? m mod 2 ^ k) || ((m mod 2 ^ k =? 2 ^ (k - 1)) && Z.odd q)).
  - split; [apply Z.div_le_mono; lia | apply div_succ_le; lia].
  - lia.
Qed.

Lemma zfloor_le_rows (rows : Z) (r : f32) :
  0 <= rows -> ratio_ok r -> 0 <= zfloor (rows * fm r) (fe r) <= rows.
Proof.
  intros Hr [[Hm0 Hm1] [[He0 He1] Hle]]. unfold zfloor.
  destruct (Z.leb_spec 0 (fe r)).
  - assert (fe r = 0) as E by lia. rewrite E in *. simpl in *. nia.
  - assert (Hp : 0 < 2 ^ (- fe r)) by (apply Z.pow_pos_nonneg; lia).
    split; [apply Z.div_pos; nia|].
    apply Z.div_le_upper_bound; nia.
Qed.

Lemma f32_of_usize_exact (n : N) :
  (n < 2 ^ 24)%N -> f32_of_usize n = {| fm := Z.of_N n; fe := 0 |}.
Proof.
  intros Hn. unfold f32_of_usize, round24.
  destruct (Z.ltb_spec (Z.of_N n) (2 ^ 24)); [reflexivity|].
  exfalso. assert (Z.of_N n < Z.of_N (2 ^ 24)) by (apply N2Z.inj_lt; exact Hn).
  simpl in *. lia.
Qed.

(** C3 (as stated): [max(1, min(floor(totalRows * ratio), remaining))]
    with the exact product fails for [ratio = 0.7f32] (the [f32] nearest
    0.7, a value in (0,1] slightly below 0.7): [10 * ratio] rounds up to
    [7.0] in [f32], so the code gives 7 rows where the formula gives 6. *)
Lemma image_rows_f32_rounding :
  ratio_ok ratio_07 /\
  image_rows 10 0 ratio_07 = 7%N /\ image_rows_spec 10 0 ratio_07 = 6%N.
Proof.
  split; [unfold ratio_ok; simpl; lia|]. split; vm_compute; reflexivity.
Qed.

(** C3 (amended): for a terminal of fewer than [2^16] rows and a ratio
    in (0,1], the image row budget is
    [max(1, min(capped, max(0, totalRows - bubbleLineCount - 1)))] where
    [capped] is the floor of the [f32] product [totalRows * ratio]; that
    floor is the floor of the exact product or one more.  With [0.55f32]:
    24 rows and 4 bubble lines give 13, 10 rows and 8 bubble lines give 1. *)
Theorem image_rows_budget (rows bubble : N) (r : f32) :
  (rows < 2 ^ 16)%N -> ratio_ok r ->
  let exact := zfloor (Z.of_N rows * fm r) (fe r) in
  let p := f32_mul (f32_of_usize rows) r in
  let capped := zfloor (fm p) (fe p) in
  exact <= capped <= exact + 1 /\
  image_rows rows bubble r
    = N.max 1 (N.min (Z.to_N capped) (Z.to_N (Z.max 0 (Z.of_N rows - Z.of_N bubble - 1)))) /\
  image_rows 24 4 ratio_055 = 13%N /\ image_rows 10 8 ratio_055 = 1%N.
Proof.
  intros Hrows Hr exact p capped.
  assert (Hrows' : Z.of_N rows < 2 ^ 16).
  { change (2 ^ 16) with (Z.of_N (2 ^ 16)). now apply N2Z.inj_lt. }
  destruct Hr as [[Hm0 Hm1] [[He0 He1] Hle]] eqn:Hr'.
  assert (Hp : p = round24 (Z.of_N rows * fm r) (fe r)).
  { subst p. unfold f32_mul. rewrite f32_of_usize_exact by (eapply N.lt_trans; [exact Hrows|reflexivity]).
    reflexivity. }
  assert (Hcap : exact <= capped <= exact + 1).
  { subst capped exact. rewrite Hp. apply round24_floor; [nia | lia |].
    intros Hbig.
    assert (HP : 0 < 2 ^ (- fe r)) by (apply Z.pow_pos_nonneg; lia).
    assert (Hlt : Z.of_N rows * fm r < 2 ^ (16 - fe r)).
    { replace (16 - fe r) with (16 + - fe r) by lia. rewrite Z.pow_add_r by lia. change (2 ^ 16) with 65536 in *. nia. }
    apply Z.log2_lt_pow2 in Hlt; [lia | lia]. }
  assert (Hex := zfloor_le_rows (Z.of_N rows) r (N2Z.is_nonneg rows) Hr).
  split; [exact Hcap|].
  split; [|split; vm_compute; reflexivity].
  unfold image_rows, floor_as_usize. fold p. fold capped.
  rewrite Z.min_l by lia.
  rewrite N.max_comm. f_equal. f_equal.
  apply N2Z.inj. rewrite Z2N.id by lia. lia.
Qed.

Lemma image_rows_budget_witness :
  (24 < 2 ^ 16)%N /\ ratio_ok ratio_055 /\
  zfloor (24 * fm ratio_055) (fe ratio_055) = 13 /\
  image_rows 24 4 ratio_055 = 13%N.
Proof.
  assert (Hr : ratio_ok ratio_055) by (unfold ratio_ok; simpl; lia).
  split; [reflexivity|]. split; [exact Hr|]. split; [vm_compute; reflexivity|].
  destruct (image_rows_budget 24 4 ratio_055 eq_refl Hr) as [_ [_ [H _]]]. exact H.
Defined.

End RowBudgetFacts.

Module RenderFacts.
Import Render.

(** C4 (as stated): a failing read of an existing cache entry is not
    treated as a miss: the renderer would succeed with "IMG", yet
    [render_image] returns the read error. *)
Lemma render_image_read_failure_fatal :
  chafa (flag_ops true false true true true true true (Chafa.ChafaOk "IMG"%string)) tt
    = Chafa.ChafaOk "IMG"%string /\
  render_image (flag_ops true false true true true true true (Chafa.ChafaOk "IMG"%string)) opts_on tt
    = (inr (CacheIo "read_to_string"%string), tt) /\
  fst (render_image (flag_ops true false true true true true true (Chafa.ChafaOk "IMG"%string))
         opts_on tt) <> inl "IMG"%string.
Proof. split; [reflexivity|]. split; [reflexivity|]. discriminate. Qed.

(** C4 (amended): with caching enabled and an existing cache entry for the
    key, the renderer is not consulted: a failing read returns the read
    error, a failing touch-rewrite returns the write error, both with the
    state unchanged, and otherwise the cached contents are returned. *)
Theorem render_image_cache_hit {S : Type} (ops : fs_ops S) (o : RenderOptions)
    (s : S) (key : string) :
  cache_enabled o = true -> image_key ops s = Some key ->
  path_exists ops s (cache_path (cache_dir ops) key) = true ->
  let path := cache_path (cache_dir ops) key in
  (read_to_string ops s path = None ->
     render_image ops o s = (inr (CacheIo "read_to_string"%string), s)) /\
  (forall c, read_to_string ops s path = Some c -> write ops s path c = None ->
     render_image ops o s = (inr (CacheIo "write"%string), s)) /\
  (forall c s', read_to_string ops s path = Some c -> write ops s path c = Some s' ->
     render_image ops o s = (inl c, s')).
Proof.
  intros Hon Hkey Hex path. unfold path in *. clear path.
  set (path := cache_path (cache_dir ops) key) in *.
  assert (Hu : render_image ops o s =
    (if path_exists ops s path then
       match read_to_string ops s path with
       | Some c => match write ops s path c with
                   | Some s' => (inl c, s')
                   | None => (inr (CacheIo "write"%string), s)
                   end
       | None => (inr (CacheIo "read_to_string"%string), s)
       end
     else render_image ops o s)).
  { rewrite Hex. unfold render_image, bind, lift_io, io_unit, ret.
    rewrite Hkey. simpl. rewrite Hon. change (cache_path (cache_dir ops) key) with path.
    rewrite Hex. simpl.
    destruct (read_to_string ops s path) as [c|]; [|reflexivity].
    unfold lift_io. destruct (write ops s path c); reflexivity. }
  rewrite Hu, Hex.
  split; [intros Hr; now rewrite Hr|].
  split; intros c; [intros Hr Hw | intros s2 Hr Hw]; rewrite Hr; now rewrite Hw.
Qed.

Lemma render_image_cache_hit_witness :
  cache_enabled opts_on = true /\
  image_key (flag_ops true false true true true true true (Chafa.ChafaOk "IMG"%string)) tt
    = Some "k"%string /\
  (let ops := flag_ops true false true true true true true (Chafa.ChafaOk "IMG"%string) in
   let path := cache_path (cache_dir ops) "k" in
   (read_to_string ops tt path = None ->
      render_image ops opts_on tt = (inr (CacheIo "read_to_string"%string), tt)) /\
   (forall c, read_to_string ops tt path = Some c -> write ops tt path c = None ->
      render_image ops opts_on tt = (inr (CacheIo "write"%string), tt)) /\
   (forall c s', read_to_string ops tt path = Some c -> write ops tt path c = Some s' ->
      render_image ops opts_on tt = (inl c, s'))).
Proof.
  split; [reflexivity|]. split; [reflexivity|].
  exact (render_image_cache_hit
           (flag_ops true false true true true true true (Chafa.ChafaOk "IMG"%string))
           opts_on tt "k"%string eq_refl eq_refl eq_refl).
Defined.

(** C5 (as stated): a failing cache write fails the render: the renderer
    succeeds with "IMG" but [write_all] fails, and [render_image] returns
    the write error. *)
Lemma render_image_write_failure_fatal :
  chafa (flag_ops false true true true true false true (Chafa.ChafaOk "IMG"%string)) tt
    = Chafa.ChafaOk "IMG"%string /\
  render_image (flag_ops false true true true true false true (Chafa.ChafaOk "IMG"%string)) opts_on tt
    = (inr (CacheIo "write_all"%string), tt) /\
  fst (render_image (flag_ops false true true true true false true (Chafa.ChafaOk "IMG"%string))
         opts_on tt) <> inl "IMG"%string.
Proof. split; [reflexivity|]. split; [reflexivity|]. discriminate. Qed.

(** C5 (amended): with caching enabled, on a cache miss where the renderer
    succeeds with [out], [render_image] returns [out] exactly when creating
    the cache directory, creating the cache file, writing the payload and
    the eviction pass all succeed; otherwise it returns the failing cache
    operation's I/O error.  The eviction pass itself fails only when the
    cache directory cannot be listed (failures on single entries are
    skipped). *)
Theorem render_image_cache_store {S : Type} (ops : fs_ops S) (o : RenderOptions)
    (s : S) (key out : string) :
  cache_enabled o = true -> image_key ops s = Some key ->
  path_exists ops s (cache_path (cache_dir ops) key) = false ->
  chafa ops s = Chafa.ChafaOk out ->
  let path := cache_path (cache_dir ops) key in
  (fst (render_image ops o s) = inl out <->
     exists s1 s2 s3 s4,
       create_dir_all ops s (cache_dir ops) = Some s1 /\ file_create ops s1 path = Some s2 /\
       write_all ops s2 path out = Some s3 /\ enforce_limit ops s3 (max_bytes o) = Some s4) /\
  (create_dir_all ops s (cache_dir ops) = None ->
     fst (render_image ops o s) = inr (CacheIo "create_dir_all"%string)) /\
  (forall s1, create_dir_all ops s (cache_dir ops) = Some s1 -> file_create ops s1 path = None ->
     fst (render_image ops o s) = inr (CacheIo "create"%string)) /\
  (forall s1 s2, create_dir_all ops s (cache_dir ops) = Some s1 -> file_create ops s1 path = Some s2 ->
     write_all ops s2 path out = None ->
     fst (render_image ops o s) = inr (CacheIo "write_all"%string)) /\
  (forall s1 s2 s3, create_dir_all ops s (cache_dir ops) = Some s1 -> file_create ops s1 path = Some s2 ->
     write_all ops s2 path out = Some s3 -> enforce_limit ops s3 (max_bytes o) = None ->
     fst (render_image ops o s) = inr (CacheIo "enforce_cache_limit"%string)) /\
  (forall remove_ok d mx,
     fst (Evict.enforce_cache_limit remove_ok d mx) = Evict.IoErr <-> d = Evict.DirUnreadable).
Proof.
  intros Hon Hkey Hex Hch path. unfold path in *. clear path.
  set (path := cache_path (cache_dir ops) key) in *.
  assert (Hu : fst (render_image ops o s) =
    match create_dir_all ops s (cache_dir ops) with
    | None => inr (CacheIo "create_dir_all"%string)
    | Some s1 => match file_create ops s1 path with
      | None => inr (CacheIo "create"%string)
      | Some s2 => match write_all ops s2 path out with
        | None => inr (CacheIo "write_all"%string)
        | Some s3 => match enforce_limit ops s3 (max_bytes o) with
          | None => inr (CacheIo "enforce_cache_limit"%string)
          | Some _ => inl out
          end end end end).
  { unfold render_image, bind, lift_io, io_unit, ret.
    rewrite Hkey. simpl. rewrite Hon. change (cache_path (cache_dir ops) key) with path.
    rewrite Hex. simpl. rewrite Hch. unfold lift_io.
    destruct (create_dir_all ops s (cache_dir ops)) as [s1|]; [|reflexivity].
    destruct (file_create ops s1 path) as [s2|]; [|reflexivity].
    destruct (write_all ops s2 path out) as [s3|]; [|reflexivity].
    destruct (enforce_limit ops s3 (max_bytes o)); reflexivity. }
  split; [|split; [|split; [|split; [|split]]]].
  - rewrite Hu. split.
    + destruct (create_dir_all ops s (cache_dir ops)) as [s1|] eqn:H1; [|intros Hd; discriminate Hd].
      destruct (file_create ops s1 path) as [s2|] eqn:H2; [|intros Hd; discriminate Hd].
      destruct (write_all ops s2 path out) as [s3|] eqn:H3; [|intros Hd; discriminate Hd].
      destruct (enforce_limit ops s3 (max_bytes o)) as [s4|] eqn:H4; [|intros Hd; discriminate Hd].
      intros _. now exists s1, s2, s3, s4.
    + intros (s1 & s2 & s3 & s4 & H1 & H2 & H3 & H4). now rewrite H1, H2, H3, H4.
  - intros H1. now rewrite Hu, H1.
  - intros s1 H1 H2. now rewrite Hu, H1, H2.
  - intros s1 s2 H1 H2 H3. now rewrite Hu, H1, H2, H3.
  - intros s1 s2 s3 H1 H2 H3 H4. now rewrite Hu, H1, H2, H3, H4.
  - intros remove_ok d mx. unfold Evict.enforce_cache_limit.
    destruct d as [| |es]; [split; discriminate | split; reflexivity |].
    split; [|discriminate].
    destruct (Evict.total_size_u64 es <=? mx)%N; discriminate.
Qed.

Lemma render_image_cache_store_witness :
  cache_enabled opts_on = true /\
  (let ops := flag_ops false true true true true true true (Chafa.ChafaOk "IMG"%string) in
   image_key ops tt = Some "k"%string /\
   path_exists ops tt (cache_path (cache_dir ops) "k") = false /\
   chafa ops tt = Chafa.ChafaOk "IMG"%string /\
   fst (render_image ops opts_on tt) = inl "IMG"%string /\
   (fst (render_image ops opts_on tt) = inl "IMG"%string <->
     exists s1 s2 s3 s4,
       create_dir_all ops tt (cache_dir ops) = Some s1 /\
       file_create ops s1 (cache_path (cache_dir ops) "k") = Some s2 /\
       write_all ops s2 (cache_path (cache_dir ops) "k") "IMG" = Some s3 /\
       enforce_limit ops s3 (max_bytes opts_on) = Some s4)).
Proof.
  split; [reflexivity|].
  split; [reflexivity|]. split; [reflexivity|]. split; [reflexivity|].
  split; [reflexivity|].
  destruct (render_image_cache_store
              (flag_ops false true true true true true true (Chafa.ChafaOk "IMG"%string))
              opts_on tt "k"%string "IMG"%string eq_refl eq_refl eq_refl eq_refl) as [H _].
  exact H.
Defined.

End RenderFacts.

Module CacheKeyFacts.
Import CacheKey.

(** C6: the key is a function of the image path, the image's modification
    time (in whole seconds), cols, rows, format, colors and animate only:
    two computations on file systems that report the same modification
    time for the image yield the same digest (and both succeed). *)
Theorem cache_key_deterministic (finalize_hex : list byte -> string)
    (fs1 fs2 : string -> option metadata) (m1 m2 : metadata)
    (image : string) (cols rows : Z) (format : ChafaFormat.t)
    (colors : ChafaColors.t) (animate : bool) :
  fs1 image = Some m1 -> fs2 image = Some m2 -> mtime_secs m1 = mtime_secs m2 ->
  exists key,
    cache_key finalize_hex fs1 image cols rows format colors animate = Some key /\
    cache_key finalize_hex fs2 image cols rows format colors animate = Some key.
Proof.
  intros H1 H2 Ht. unfold cache_key. rewrite H1, H2, Ht. eauto.
Qed.

Lemma cache_key_deterministic_witness :
  (fun _ : string => Some {| modified := Some 1700000000123456789 |}) "image.png"%string
    = Some {| modified := Some 1700000000123456789 |} /\
  (fun _ : string => Some {| modified := Some 1700000000999999999 |}) "image.png"%string
    = Some {| modified := Some 1700000000999999999 |} /\
  mtime_secs {| modified := Some 1700000000123456789 |}
    = mtime_secs {| modified := Some 1700000000999999999 |} /\
  exists key,
    cache_key raw_digest (fun _ => Some {| modified := Some 1700000000123456789 |})
      "image.png"%string 40 10 ChafaFormat.Auto ChafaColors.Auto false = Some key /\
    cache_key raw_digest (fun _ => Some {| modified := Some 1700000000999999999 |})
      "image.png"%string 40 10 ChafaFormat.Auto ChafaColors.Auto false = Some key.
Proof.
  split; [reflexivity|]. split; [reflexivity|]. split; [vm_compute; reflexivity|].
  apply (cache_key_deterministic raw_digest
           (fun _ => Some {| modified := Some 1700000000123456789 |})
           (fun _ => Some {| modified := Some 1700000000999999999 |})
           {| modified := Some 1700000000123456789 |}
           {| modified := Some 1700000000999999999 |}
           "image.png"%string 40 10 ChafaFormat.Auto ChafaColors.Auto false);
    [reflexivity | reflexivity | vm_compute; reflexivity].
Defined.

End CacheKeyFacts.

(* ================================================================== *)
(** * Further properties of the code *)

Module BubbleExtra.
Import Bubble.
Open Scope string_scope.

(** The frame characters of line [k] of an [n]-line bubble, as the
    [if wrapped.len() == 1] branch and the [match idx] arms choose them. *)
Definition frame_spec (n k : nat) : string * string :=
  if Nat.eqb n 1 then ("<", ">")
  else if Nat.eqb k 0 then ("/", "\")
  else if Nat.eqb (k + 1) n then ("\", "/")
  else ("|", "|").

Lemma string_app_assoc (a b c : string) : (a ++ b) ++ c = a ++ (b ++ c).
Proof. induction a as [|x a IH]; simpl; congruence. Qed.

Lemma string_app_empty (a : string) : a ++ "" = a.
Proof. induction a as [|x a IH]; simpl; congruence. Qed.

Lemma pad_line_expand (w : string) (m : nat) :
  String.length w <= m ->
  pad_line w m = w ++ repeat_char " "%char (m - String.length w).
Proof.
  intros Hle. unfold pad_line.
  destruct (Nat.ltb_spec (String.length w) m); [reflexivity|].
  replace (m - String.length w) with 0 by lia. simpl. symmetry. apply string_app_empty.
Qed.

Lemma nth_frame_lines (n idx m k : nat) (ws : list string) :
  k < List.length ws ->
  nth k (frame_lines n idx m ws) "" =
    fst (frame_chars (idx + k) n) ++ " " ++ pad_line (nth k ws "") m ++ " "
      ++ snd (frame_chars (idx + k) n).
Proof.
  revert idx k. induction ws as [|w ws IH]; intros idx k Hk; simpl in Hk; [lia|].
  cbn [frame_lines]. destruct (frame_chars idx n) as [lc rc] eqn:Ef.
  destruct k as [|k].
  - rewrite Nat.add_0_r, Ef. reflexivity.
  - cbn [nth]. rewrite IH by lia. rewrite Nat.add_succ_r. reflexivity.
Qed.

(** Round trip of the layout: for a terminal wider than 14 columns, line
    [k + 1] of the bubble shows wrapped line [k] unchanged, framed by the
    characters of its position ([<] [>] for a single line, [/] [\] for the
    first, [\] [/] for the last, [|] [|] in between), one space on each
    side, and space padding up to the longest wrapped line. *)
Theorem render_bubble_line_content (wrap : string -> nat -> list string)
    (text : string) (cols k : nat) (ws : list string) :
  14 < cols ->
  wrap text (Nat.min (cols - 4) DEFAULT_BUBBLE_MAX_WIDTH) = ws ->
  k < List.length ws ->
  nth (S k) (render_bubble wrap text cols) "" =
    fst (frame_spec (List.length ws) k) ++ " " ++ nth k ws ""
      ++ repeat_char " "%char (max_len ws - String.length (nth k ws ""))
      ++ " " ++ snd (frame_spec (List.length ws) k).
Proof.
  intros Hc Hws Hk. unfold render_bubble. cbv zeta.
  destruct (Nat.leb_spec cols (4 + 10)) as [|_]; [lia|].
  rewrite Hws.
  assert (Hb : String.length (nth k ws "") <= max_len ws)
    by (apply BubbleFacts.max_len_bound, nth_In; exact Hk).
  destruct ws as [|w0 ws']; [simpl in Hk; lia|].
  set (ws := w0 :: ws') in *.
  unfold frame_spec.
  destruct (Nat.eqb_spec (List.length ws) 1) as [E1|N1].
  - destruct ws' as [|w1 ws'']; [|simpl in E1; lia].
    destruct k as [|k]; [|simpl in Hk; lia].
    simpl nth. subst ws. simpl in Hb.
    rewrite pad_line_expand by exact Hb.
    simpl. rewrite string_app_assoc. reflexivity.
  - cbn [nth].
    assert (Hl : List.length (frame_lines (List.length ws) 0 (max_len ws) ws) = List.length ws)
      by (apply (BubbleFacts.frame_lines_shape _ _ _ _ (fun l H => BubbleFacts.max_len_bound ws l H))).
    rewrite app_nth1 by lia.
    rewrite nth_frame_lines by exact Hk.
    rewrite pad_line_expand by exact Hb.
    rewrite string_app_assoc. simpl (0 + k).
    unfold frame_chars. reflexivity.
Qed.

Lemma render_bubble_line_content_witness :
  14 < 20 /\
  nth 2 (render_bubble (fun _ _ => ["hello"; "hi"; "world!"]) "hello hi world!" 20) ""
    = "| hi     |".
Proof.
  split; [lia|].
  rewrite (render_bubble_line_content (fun _ _ => ["hello"; "hi"; "world!"])
             "hello hi world!" 20 1 ["hello"; "hi"; "world!"]) by (reflexivity || (simpl; lia)).
  reflexivity.
Defined.

End BubbleExtra.


Module ChafaExtra.
Import Chafa.

(** If the renderer cannot be started at all, [run_chafa] reports
    "running chafa" after that one attempt, even for [Auto] selectors. *)
Theorem run_chafa_spawn_failure_no_retry
    (run_chafa_once : ChafaFormat.t -> ChafaColors.t -> option output)
    (format : ChafaFormat.t) (colors : ChafaColors.t) :
  run_chafa_once format colors = None ->
  run_chafa run_chafa_once format colors = (ChafaErr RunningChafa, [(format, colors)]).
Proof. intros H. unfold run_chafa. now rewrite H. Qed.

Lemma run_chafa_spawn_failure_no_retry_witness :
  (fun (_ : ChafaFormat.t) (_ : ChafaColors.t) => @None output) ChafaFormat.Auto ChafaColors.Auto = None /\
  run_chafa (fun _ _ => None) ChafaFormat.Auto ChafaColors.Auto
    = (ChafaErr RunningChafa, [(ChafaFormat.Auto, ChafaColors.Auto)]).
Proof.
  split; [reflexivity|].
  exact (run_chafa_spawn_failure_no_retry (fun _ _ => None) ChafaFormat.Auto ChafaColors.Auto eq_refl).
Defined.

(** [run_chafa] calls the renderer once with the requested selectors and
    at most once more; a second call only happens when one selector was
    [Auto], and it never passes [Auto]: format [Auto] becomes [Unicode],
    colors [Auto] becomes [Truecolor], other values are kept. *)
Theorem run_chafa_calls
    (run_chafa_once : ChafaFormat.t -> ChafaColors.t -> option output)
    (format : ChafaFormat.t) (colors : ChafaColors.t) :
  snd (run_chafa run_chafa_once format colors) = [(format, colors)] \/
  exists ff fc,
    snd (run_chafa run_chafa_once format colors) = [(format, colors); (ff, fc)] /\
    (format = ChafaFormat.Auto \/ colors = ChafaColors.Auto) /\
    ff <> ChafaFormat.Auto /\ fc <> ChafaColors.Auto /\
    (format = ChafaFormat.Auto -> ff = ChafaFormat.Unicode) /\
    (colors = ChafaColors.Auto -> fc = ChafaColors.Truecolor) /\
    (format <> ChafaFormat.Auto -> ff = format) /\
    (colors <> ChafaColors.Auto -> fc = colors).
Proof.
  unfold run_chafa.
  destruct (run_chafa_once format colors) as [out|]; [|now left].
  destruct (status_success out); [now left|].
  destruct format, colors; simpl;
    try (left; reflexivity);
    (right; eexists _, _;
     split; [destruct (run_chafa_once _ _) as [r|]; [destruct (status_success r)|]; reflexivity|];
     repeat split; try (intros; congruence); try (left; reflexivity); try (right; reflexivity);
     discriminate).
Qed.

End ChafaExtra.

Module RenderExtra.
Import Render.

(** The image metadata is read first, whether or not caching is enabled:
    when it cannot be read, [render_image] fails before consulting the
    cache or the renderer, and the file system is untouched. *)
Theorem render_image_metadata_failure {S : Type} (ops : fs_ops S) (o : RenderOptions) (s : S) :
  image_key ops s = None ->
  render_image ops o s = (inr (CacheIo "cache_key"%string), s).
Proof. intros H. unfold render_image, bind, lift_io. now rewrite H. Qed.

Lemma render_image_metadata_failure_witness :
  image_key {| cache_dir := "/c"; image_key := fun _ => None; path_exists := fun _ _ => true;
               read_to_string := fun _ _ => Some "x"; write := fun _ _ _ => Some tt;
               create_dir_all := fun _ _ => Some tt; file_create := fun _ _ => Some tt;
               write_all := fun _ _ _ => Some tt; enforce_limit := fun _ _ => Some tt;
               chafa := fun _ => Chafa.ChafaOk "IMG" |}%string tt = None /\
  render_image {| cache_dir := "/c"; image_key := fun _ => None; path_exists := fun _ _ => true;
               read_to_string := fun _ _ => Some "x"; write := fun _ _ _ => Some tt;
               create_dir_all := fun _ _ => Some tt; file_create := fun _ _ => Some tt;
               write_all := fun _ _ _ => Some tt; enforce_limit := fun _ _ => Some tt;
               chafa := fun _ => Chafa.ChafaOk "IMG" |}%string opts_on tt
    = (inr (CacheIo "cache_key"%string), tt).
Proof.
  split; [reflexivity|].
  apply render_image_metadata_failure. reflexivity.
Defined.

(** With caching disabled, [render_image] returns exactly what the
    renderer returns (payload or error) and performs no file system
    write: the state is unchanged. *)
Theorem render_image_uncached {S : Type} (ops : fs_ops S) (o : RenderOptions) (s : S) (key : string) :
  cache_enabled o = false -> image_key ops s = Some key ->
  render_image ops o s =
    (match chafa ops s with
     | Chafa.ChafaOk out => inl out
     | Chafa.ChafaErr e => inr (Renderer e)
     end, s).
Proof.
  intros Hoff Hkey. unfold render_image, bind, lift_io, ret.
  rewrite Hkey. simpl. rewrite Hoff. simpl.
  destruct (chafa ops s); reflexivity.
Qed.

Lemma render_image_uncached_witness :
  cache_enabled {| cache_enabled := false; cache_max_mb := 64 |} = false /\
  image_key (flag_ops true false false false false false false (Chafa.ChafaOk "IMG"%string)) tt
    = Some "k"%string /\
  render_image (flag_ops true false false false false false false (Chafa.ChafaOk "IMG"%string))
    {| cache_enabled := false; cache_max_mb := 64 |} tt = (inl "IMG"%string, tt).
Proof.
  split; [reflexivity|]. split; [reflexivity|].
  exact (render_image_uncached
           (flag_ops true false false false false false false (Chafa.ChafaOk "IMG"%string))
           {| cache_enabled := false; cache_max_mb := 64 |} tt "k"%string eq_refl eq_refl).
Defined.

(** When the renderer is invoked (caching disabled, or no cache entry) and
    fails, [render_image] returns the renderer's error and writes nothing
    to the cache. *)
Theorem render_image_renderer_failure {S : Type} (ops : fs_ops S) (o : RenderOptions)
    (s : S) (key : string) (e : Chafa.chafa_error) :
  image_key ops s = Some key ->
  (cache_enabled o = false \/ path_exists ops s (cache_path (cache_dir ops) key) = false) ->
  chafa ops s = Chafa.ChafaErr e ->
  render_image ops o s = (inr (Renderer e), s).
Proof.
  intros Hkey Hmiss Hch. unfold render_image, bind, lift_io, ret.
  rewrite Hkey. simpl.
  assert (Hc : (cache_enabled o && path_exists ops s (cache_path (cache_dir ops) key)) = false).
  { destruct Hmiss as [H|H]; rewrite H; [reflexivity | apply andb_false_r]. }
  rewrite Hc. now rewrite Hch.
Qed.

Lemma render_image_renderer_failure_witness :
  image_key (flag_ops false true true true true true true
               (Chafa.ChafaErr (Chafa.ChafaFailed "bad"%string))) tt = Some "k"%string /\
  (cache_enabled opts_on = false \/
   path_exists (flag_ops false true true true true true true
                  (Chafa.ChafaErr (Chafa.ChafaFailed "bad"%string))) tt
     (cache_path "/cache" "k") = false) /\
  render_image (flag_ops false true true true true true true
                  (Chafa.ChafaErr (Chafa.ChafaFailed "bad"%string))) opts_on tt
    = (inr (Renderer (Chafa.ChafaFailed "bad"%string)), tt).
Proof.
  split; [reflexivity|]. split; [right; reflexivity|].
  apply (render_image_renderer_failure
           (flag_ops false true true true true true true
              (Chafa.ChafaErr (Chafa.ChafaFailed "bad"%string))) opts_on tt "k"%string);
    [reflexivity | right; reflexivity | reflexivity].
Defined.

End RenderExtra.

Module EvictExtra.
Import Evict EvictFacts.

Lemma filter_filter' {A} (f g : A -> bool) (l : list A) :
  filter f (filter g l) = filter (fun x => g x && f x) l.
Proof.
  induction l as [|x l IH]; simpl; [reflexivity|].
  destruct (g x); simpl; [destruct (f x); simpl; congruence | exact IH].
Qed.

Lemma total_size_filter_le (f : entry -> bool) (l : list entry) :
  (total_size (filter f l) <= total_size l)%N.
Proof.
  induction l as [|x l IH]; simpl; [lia|].
  unfold total_size in *; simpl.
  destruct (f x); simpl; destruct (entry_len x); lia.
Qed.

Lemma evict_loop_filter (remove_ok : string -> bool) (max_bytes : N) :
  forall es st total, exists f, evict_loop remove_ok max_bytes total es st = filter f st.
Proof.
  induction es as [|e rest IH]; intros st total; simpl.
  - exists (fun _ => true). symmetry. apply forallb_filter_id, forallb_forall. auto.
  - destruct (total <=? max_bytes)%N.
    + exists (fun _ => true). symmetry. apply forallb_filter_id, forallb_forall. auto.
    + unfold remove_file. destruct (remove_ok (ent_name e)).
      * destruct (IH (filter (fun x => negb (String.eqb (ent_name x) (ent_name e))) st)
                    (match entry_len e with Some len => (total - len)%N | None => total end))
          as [f Hf].
        rewrite Hf, filter_filter'. eauto.
      * apply IH.
Qed.

(** Eviction only ever deletes: the directory afterwards is the listing
    with some entries filtered out (order kept), and its total size is no
    larger than before, whatever the removals and metadata do. *)
Theorem enforce_cache_limit_only_deletes (remove_ok : string -> bool)
    (es : list entry) (max_bytes : N) :
  exists keep es',
    enforce_cache_limit remove_ok (DirEntries es) max_bytes = (IoOk, DirEntries es') /\
    es' = filter keep es /\ (total_size es' <= total_size es)%N.
Proof.
  unfold enforce_cache_limit.
  destruct (total_size_u64 es <=? max_bytes)%N.
  - exists (fun _ => true), es. split; [reflexivity|]. split; [|lia].
    symmetry. apply forallb_filter_id, forallb_forall. auto.
  - destruct (evict_loop_filter remove_ok max_bytes (sort_by_key es) es (total_size_u64 es)) as [f Hf].
    exists f, (filter f es). rewrite Hf. split; [reflexivity|]. split; [reflexivity|].
    apply total_size_filter_le.
Qed.

Definition len0 (e : entry) : N := match entry_len e with Some l => l | None => 0%N end.

Lemma NoDup_map_filter (f : entry -> bool) (l : list entry) :
  NoDup (map ent_name l) -> NoDup (map ent_name (filter f l)).
Proof.
  induction l as [|x l IH]; simpl; intros Hnd; [constructor|].
  inversion Hnd as [|? ? Hnin Hnd']; subst.
  destruct (f x); simpl; [|auto].
  constructor; [|auto].
  intros Hin. apply Hnin. apply in_map_iff in Hin as [y [Hy Hiny]].
  apply filter_In in Hiny as [Hiny _]. rewrite <- Hy. now apply in_map.
Qed.

Lemma total_size_remove (e : entry) (st : list entry) :
  NoDup (map ent_name st) -> In e st ->
  total_size st = (len0 e + total_size (filter (fun x => negb (String.eqb (ent_name x) (ent_name e))) st))%N.
Proof.
  induction st as [|y st IH]; intros Hnd Hin; [contradiction|].
  inversion Hnd as [|? ? Hnin Hnd']; subst.
  simpl. destruct Hin as [->|Hin].
  - rewrite String.eqb_refl. simpl.
    rewrite forallb_filter_id.
    + unfold total_size, len0. simpl. destruct (entry_len e); lia.
    + apply forallb_forall. intros x Hx.
      destruct (String.eqb_spec (ent_name x) (ent_name e)) as [E|]; [|reflexivity].
      exfalso. apply Hnin. rewrite <- E. now apply in_map.
  - destruct (String.eqb_spec (ent_name y) (ent_name e)) as [E|E].
    + exfalso. apply Hnin. rewrite E. now apply in_map.
    + simpl. unfold total_size in *. simpl. rewrite (IH Hnd' Hin).
      destruct (entry_len y); lia.
Qed.

Lemma evict_loop_over_budget (remove_ok : string -> bool) (max_bytes : N) :
  forall es st total,
    NoDup (map ent_name es) -> NoDup (map ent_name st) ->
    (forall x, In x es -> In x st) ->
    (forall x, In x st -> remove_ok (ent_name x) = true -> In x es) ->
    total = total_size st ->
    (max_bytes < total_size (evict_loop remove_ok max_bytes total es st))%N ->
    forall x, In x (evict_loop remove_ok max_bytes total es st) -> remove_ok (ent_name x) = false.
Proof.
  induction es as [|e rest IH]; intros st total Hnde Hnds Hsub Hinv Ht Hover x Hx; simpl in *.
  - destruct (remove_ok (ent_name x)) eqn:E; [|reflexivity]. exfalso. exact (Hinv x Hx E).
  - destruct (N.leb_spec total max_bytes) as [Hle|Hgt]; [subst; lia|].
    inversion Hnde as [|? ? Hnin Hnde']; subst.
    unfold remove_file in *. destruct (remove_ok (ent_name e)) eqn:Ee.
    + set (st' := filter (fun y => negb (String.eqb (ent_name y) (ent_name e))) st) in *.
      apply (IH st' (match entry_len e with Some len => (total_size st - len)%N
                     | None => total_size st end) Hnde' (NoDup_map_filter _ _ Hnds)); auto.
      * intros y Hy. apply filter_In. split; [now apply Hsub; right|].
        destruct (String.eqb_spec (ent_name y) (ent_name e)) as [E|]; [|reflexivity].
        exfalso. apply Hnin. rewrite <- E. now apply in_map.
      * intros y Hy Hok. apply filter_In in Hy as [Hy Hne].
        destruct (Hinv y Hy Hok) as [<-|]; [|assumption].
        rewrite String.eqb_refl in Hne. discriminate.
      * rewrite (total_size_remove e st Hnds (Hsub e (or_introl eq_refl))).
        unfold len0. fold st'. destruct (entry_len e); lia.
    + apply (IH st (total_size st) Hnde' Hnds); auto.
      intros y Hy Hok. destruct (Hinv y Hy Hok) as [<-|]; [congruence|assumption].
Qed.

(** If the directory is still over budget after eviction (entry names
    being distinct, and the total size fitting in a [u64] so that the
    code's sum does not wrap), every entry left in it is one whose removal
    failed: eviction gives up on nothing it could delete. *)
Theorem enforce_cache_limit_over_budget (remove_ok : string -> bool)
    (es es' : list entry) (max_bytes : N) :
  (total_size es < 2 ^ 64)%N ->
  NoDup (map ent_name es) ->
  snd (enforce_cache_limit remove_ok (DirEntries es) max_bytes) = DirEntries es' ->
  (max_bytes < total_size es')%N ->
  forall e, In e es' -> remove_ok (ent_name e) = false.
Proof.
  intros Hfit Hnd Hres Hover. unfold enforce_cache_limit in Hres.
  rewrite (EvictFacts.total_size_u64_exact es Hfit) in Hres.
  destruct (N.leb_spec (total_size es) max_bytes) as [Hle|Hgt].
  - simpl in Hres. injection Hres as <-. lia.
  - simpl in Hres. injection Hres as <-.
    apply (evict_loop_over_budget remove_ok max_bytes (sort_by_key es) es (total_size es)); auto.
    + eapply Permutation_NoDup; [|exact Hnd].
      apply Permutation_map. symmetry. apply sort_by_key_perm.
    + intros x Hx. eapply Permutation_in; [apply sort_by_key_perm | exact Hx].
    + intros x Hx _. eapply Permutation_in; [symmetry; apply sort_by_key_perm | exact Hx].
Qed.

Lemma enforce_cache_limit_over_budget_witness :
  (total_size [ent "a" 30 10; ent "b" 40 20] < 2 ^ 64)%N /\
  NoDup (map ent_name [ent "a" 30 10; ent "b" 40 20]) /\
  snd (enforce_cache_limit (fun n => negb (String.eqb n "b"))
         (DirEntries [ent "a" 30 10; ent "b" 40 20]) 20)
    = DirEntries [ent "b" 40 20] /\
  (20 < total_size [ent "b" 40 20])%N /\
  (forall e, In e [ent "b" 40 20] -> (fun n => negb (String.eqb n "b")) (ent_name e) = false).
Proof.
  assert (Hnd : NoDup (map ent_name [ent "a" 30 10; ent "b" 40 20])).
  { simpl. repeat constructor; simpl; intuition discriminate. }
  assert (Hfit : (total_size [ent "a" 30 10; ent "b" 40 20] < 2 ^ 64)%N)
    by (vm_compute; reflexivity).
  split; [exact Hfit|].
  split; [exact Hnd|]. split; [reflexivity|]. split; [vm_compute; reflexivity|].
  apply (enforce_cache_limit_over_budget (fun n => negb (String.eqb n "b"))
           [ent "a" 30 10; ent "b" 40 20] [ent "b" 40 20] 20 Hfit Hnd eq_refl).
  vm_compute. reflexivity.
Defined.

End EvictExtra.

Module CacheKeyExtra.
Import CacheKey.
Open Scope Z_scope.

Lemma to_N_byte_of_Z (z : Z) : Byte.to_N (byte_of_Z z) = Z.to_N (z mod 256).
Proof.
  unfold byte_of_Z. destruct (Byte.of_N (Z.to_N (z mod 256))) as [b|] eqn:E.
  - now apply Byte.to_of_N in E.
  - exfalso. pose proof (Byte.to_of_N_option_map (Z.to_N (z mod 256))) as H.
    rewrite E in H. simpl in H.
    assert (Hb : (Z.to_N (z mod 256) <=? 255)%N = true).
    { apply N.leb_le. pose proof (Z.mod_pos_bound z 256). lia. }
    rewrite Hb in H. discriminate.
Qed.

Lemma length_le_bytes (n : nat) (z : Z) : List.length (le_bytes n z) = n.
Proof. revert z. induction n; intros; simpl; auto. Qed.

Lemma le_bytes_inj (n : nat) (z z' : Z) :
  0 <= z < 2 ^ (8 * Z.of_nat n) -> 0 <= z' < 2 ^ (8 * Z.of_nat n) ->
  le_bytes n z = le_bytes n z' -> z = z'.
Proof.
  revert z z'. induction n as [|n IH]; intros z z' Hz Hz' E.
  - simpl in *. lia.
  - simpl in E. injection E as Eh Et.
    assert (Hpow : 2 ^ (8 * Z.of_nat (S n)) = 256 * 2 ^ (8 * Z.of_nat n)).
    { rewrite Nat2Z.inj_succ. replace (8 * Z.succ (Z.of_nat n)) with (8 + 8 * Z.of_nat n) by lia.
      rewrite Z.pow_add_r by lia. reflexivity. }
    rewrite Hpow in Hz, Hz'.
    assert (Hm : z mod 256 = z' mod 256).
    { apply (f_equal Byte.to_N) in Eh. rewrite !to_N_byte_of_Z in Eh.
      pose proof (Z.mod_pos_bound z 256). pose proof (Z.mod_pos_bound z' 256).
      apply Z2N.inj; lia. }
    assert (Hd : z / 256 = z' / 256).
    { apply IH; [| |exact Et].
      - split; [apply Z.div_pos; lia|]. apply Z.div_lt_upper_bound; lia.
      - split; [apply Z.div_pos; lia|]. apply Z.div_lt_upper_bound; lia. }
    rewrite (Z.div_mod z 256), (Z.div_mod z' 256) by lia. congruence.
Qed.

Lemma app_same_length {A} (l1 l2 r1 r2 : list A) :
  List.length l1 = List.length l2 -> l1 ++ r1 = l2 ++ r2 -> l1 = l2.
Proof.
  revert l2. induction l1 as [|x l1 IH]; intros [|y l2] Hl E; simpl in *; try lia; auto.
  injection E as -> E. f_equal. apply IH; auto.
Qed.

Lemma list_byte_of_string_inj (s t : string) :
  list_byte_of_string s = list_byte_of_string t -> s = t.
Proof.
  intros E. rewrite <- (string_of_list_byte_of_string s), <- (string_of_list_byte_of_string t).
  now rewrite E.
Qed.

Lemma cache_key_bytes (finalize_hex : list byte -> string) (fs : string -> option metadata)
    (m : metadata) (image : string) (cols rows : Z) (format : ChafaFormat.t)
    (colors : ChafaColors.t) (animate : bool) :
  fs image = Some m ->
  cache_key finalize_hex fs image cols rows format colors animate =
  Some (finalize_hex (list_byte_of_string image ++ le_bytes 8 (mtime_secs m) ++
          le_bytes 8 cols ++ le_bytes 8 rows ++
          list_byte_of_string (ChafaFormat.as_arg format) ++
          list_byte_of_string (ChafaColors.as_arg colors) ++
          [if animate then x01 else x00])).
Proof.
  intros H. unfold cache_key, update. rewrite H. simpl. now rewrite <- !app_assoc.
Qed.

(** Changing exactly one of cols, rows (as 64-bit values), format, colors
    or animate changes the byte sequence fed to the hasher; whether the
    digests then differ is up to BLAKE3. *)
Theorem cache_key_hashed_bytes_differ (finalize_hex : list byte -> string)
    (fs : string -> option metadata) (m : metadata) (image : string) :
  fs image = Some m ->
  let key := cache_key finalize_hex fs image in
  let differ k1 k2 := exists b1 b2, b1 <> b2 /\ k1 = Some (finalize_hex b1) /\
                                    k2 = Some (finalize_hex b2) in
  (forall c1 c2 r f c a, 0 <= c1 < 2 ^ 64 -> 0 <= c2 < 2 ^ 64 -> c1 <> c2 ->
     differ (key c1 r f c a) (key c2 r f c a)) /\
  (forall cl r1 r2 f c a, 0 <= r1 < 2 ^ 64 -> 0 <= r2 < 2 ^ 64 -> r1 <> r2 ->
     differ (key cl r1 f c a) (key cl r2 f c a)) /\
  (forall cl r f1 f2 c a, f1 <> f2 -> differ (key cl r f1 c a) (key cl r f2 c a)) /\
  (forall cl r f c1 c2 a, c1 <> c2 -> differ (key cl r f c1 a) (key cl r f c2 a)) /\
  (forall cl r f c, differ (key cl r f c true) (key cl r f c false)).
Proof.
  intros Hm key differ. subst key differ. cbv beta.
  repeat split; intros;
    (eexists _, _; split; [|split; apply cache_key_bytes; exact Hm]); intros E;
    apply app_inv_head in E; apply app_inv_head in E.
  - apply app_same_length in E; [|now rewrite !length_le_bytes].
    apply le_bytes_inj in E; simpl; lia.
  - apply app_inv_head in E. apply app_same_length in E; [|now rewrite !length_le_bytes].
    apply le_bytes_inj in E; simpl; lia.
  - apply app_inv_head in E. apply app_inv_head in E.
    apply app_inv_tail, list_byte_of_string_inj in E.
    destruct f1, f2; try congruence; discriminate.
  - apply app_inv_head in E. apply app_inv_head in E. apply app_inv_head in E.
    apply app_inv_tail, list_byte_of_string_inj in E.
    destruct c1, c2; try congruence; discriminate.
  - apply app_inv_head in E. apply app_inv_head in E. apply app_inv_head in E.
    apply app_inv_head in E. discriminate.
Qed.

Lemma cache_key_hashed_bytes_differ_witness :
  (fun _ : string => Some {| modified := None |}) "image.png"%string = Some {| modified := None |} /\
  exists b1 b2, b1 <> b2 /\
    cache_key raw_digest (fun _ => Some {| modified := None |}) "image.png"%string
      40 10 ChafaFormat.Auto ChafaColors.Auto false = Some (raw_digest b1) /\
    cache_key raw_digest (fun _ => Some {| modified := None |}) "image.png"%string
      80 10 ChafaFormat.Auto ChafaColors.Auto false = Some (raw_digest b2).
Proof.
  split; [reflexivity|].
  destruct (cache_key_hashed_bytes_differ raw_digest (fun _ => Some {| modified := None |})
              {| modified := None |} "image.png"%string eq_refl) as [H _].
  apply H; lia.
Defined.

End CacheKeyExtra.

Module RowBudgetExtra.
Import RowBudget.

(** With the ratio exactly [1.0] the ratio cap never binds: the image
    takes all the rows left below the bubble (at least one). *)
Theorem image_rows_ratio_one (rows bubble : N) :
  (rows < 2 ^ 16)%N ->
  image_rows rows bubble {| fm := 1; fe := 0 |} = N.max 1 (rows - (bubble + 1)).
Proof.
  intros Hr. unfold image_rows, f32_mul.
  rewrite RowBudgetFacts.f32_of_usize_exact by (eapply N.lt_trans; [exact Hr | reflexivity]).
  simpl. unfold round24. rewrite Z.mul_1_r.
  assert (Hz : (Z.of_N rows < 2 ^ 24)%Z).
  { assert (Z.of_N rows < Z.of_N (2 ^ 16))%Z by (apply N2Z.inj_lt; exact Hr). simpl in *. lia. }
  destruct (Z.ltb_spec (Z.of_N rows) (2 ^ 24)); [|lia].
  unfold floor_as_usize, zfloor. simpl. rewrite Z.mul_1_r.
  rewrite Z.min_l by lia. rewrite N2Z.id. lia.
Qed.

Lemma image_rows_ratio_one_witness :
  (24 < 2 ^ 16)%N /\ image_rows 24 4 {| fm := 1; fe := 0 |} = 19%N.
Proof. split; [reflexivity|]. exact (image_rows_ratio_one 24 4 eq_refl). Defined.

End RowBudgetExtra.

Module ImagePathExtra.
Import Str ImagePath.
Open Scope string_scope.

Lemma rsplit_dot_none (s : string) :
  rsplit_dot s = None <-> ~ In "."%char (list_ascii_of_string s).
Proof.
  induction s as [|c t IH]; simpl; [tauto|].
  destruct (rsplit_dot t) as [[b a]|] eqn:E.
  - split; [discriminate|]. intros Hn. exfalso.
    destruct (in_dec ascii_dec "."%char (list_ascii_of_string t)) as [Hi|Hi].
    + apply Hn. right. exact Hi.
    + apply IH in Hi. discriminate.
  - destruct (Ascii.eqb_spec c "."%char) as [->|Hc].
    + split; [discriminate|]. intros Hn. exfalso. apply Hn. left. reflexivity.
    + split; [|reflexivity]. intros _ [H|H]; [congruence|]. apply IH in H; [exact H|reflexivity].
Qed.

Lemma rsplit_dot_some (s b a : string) :
  rsplit_dot s = Some (b, a) <->
  s = b ++ "." ++ a /\ ~ In "."%char (list_ascii_of_string a).
Proof.
  split.
  - revert b a. induction s as [|c t IH]; intros b a; simpl; [discriminate|].
    destruct (rsplit_dot t) as [[b' a']|] eqn:E.
    + intros H. injection H as <- <-. destruct (IH b' a' eq_refl) as [-> Ha].
      split; [reflexivity|exact Ha].
    + destruct (Ascii.eqb_spec c "."%char) as [->|Hc]; [|discriminate].
      intros H. injection H as <- <-. split; [reflexivity|].
      apply rsplit_dot_none. exact E.
  - intros [-> Ha]. induction b as [|c b IH]; simpl.
    + assert (E : rsplit_dot a = None) by (apply rsplit_dot_none; exact Ha).
      rewrite E. reflexivity.
    + simpl in IH. rewrite IH. reflexivity.
Qed.

Lemma eqb_dot_lower (d : ascii) :
  Ascii.eqb (ascii_lower d) "."%char = Ascii.eqb d "."%char.
Proof. destruct d as [[] [] [] [] [] [] [] []]; reflexivity. Qed.

Lemma eqb_slash_lower (d : ascii) :
  Ascii.eqb (ascii_lower d) "/"%char = Ascii.eqb d "/"%char.
Proof. destruct d as [[] [] [] [] [] [] [] []]; reflexivity. Qed.

Lemma ascii_lower_idem (d : ascii) : ascii_lower (ascii_lower d) = ascii_lower d.
Proof. destruct d as [[] [] [] [] [] [] [] []]; reflexivity. Qed.

Lemma to_lower_idem (s : string) : to_lower (to_lower s) = to_lower s.
Proof. induction s as [|c t IH]; simpl; [reflexivity|]. rewrite ascii_lower_idem, IH. reflexivity. Qed.

Lemma to_lower_app (s t : string) : to_lower (s ++ t) = to_lower s ++ to_lower t.
Proof. induction s as [|c s IH]; simpl; [reflexivity|]. rewrite IH. reflexivity. Qed.

Lemma eqb_lower_empty (x : string) : String.eqb (to_lower x) "" = String.eqb x "".
Proof. destruct x; reflexivity. Qed.

Lemma eqb_lower_dot (x : string) : String.eqb (to_lower x) "." = String.eqb x ".".
Proof. destruct x as [|c [|c' x]]; simpl; rewrite ?eqb_dot_lower; reflexivity. Qed.

Lemma eqb_lower_dotdot (x : string) : String.eqb (to_lower x) ".." = String.eqb x "..".
Proof. destruct x as [|c [|c' [|c'' x]]]; simpl; rewrite ?eqb_dot_lower; reflexivity. Qed.

Lemma split_on_lower (sep : ascii)
    (Hs : forall d, Ascii.eqb (ascii_lower d) sep = Ascii.eqb d sep) (s : string) :
  split_on sep (to_lower s) = map to_lower (split_on sep s).
Proof.
  induction s as [|c t IH]; simpl; [reflexivity|].
  rewrite Hs, IH. destruct (Ascii.eqb c sep); [reflexivity|].
  destruct (split_on sep t); reflexivity.
Qed.

Lemma last_opt_map {A B : Type} (f : A -> B) (l : list A) :
  last_opt (map f l) = option_map f (last_opt l).
Proof.
  induction l as [|x l IH]; [reflexivity|].
  destruct l as [|y l]; [reflexivity|]. exact IH.
Qed.

Lemma filter_map_comm {A : Type} (P : A -> bool) (f : A -> A)
    (HP : forall x, P (f x) = P x) (l : list A) :
  filter P (map f l) = map f (filter P l).
Proof.
  induction l as [|x l IH]; simpl; [reflexivity|].
  rewrite HP, IH. destruct (P x); reflexivity.
Qed.

Lemma file_name_lower (p : string) :
  file_name (to_lower p) = option_map to_lower (file_name p).
Proof.
  unfold file_name. rewrite (split_on_lower _ eqb_slash_lower).
  rewrite filter_map_comm by (intros x; rewrite eqb_lower_empty, eqb_lower_dot; reflexivity).
  rewrite last_opt_map.
  destruct (last_opt _) as [x|]; simpl; [|reflexivity].
  rewrite eqb_lower_dotdot. destruct (String.eqb x ".."); reflexivity.
Qed.

Lemma rsplit_dot_lower (s : string) :
  rsplit_dot (to_lower s)
  = option_map (fun ba => (to_lower (fst ba), to_lower (snd ba))) (rsplit_dot s).
Proof.
  induction s as [|c t IH]; simpl; [reflexivity|].
  rewrite IH. destruct (rsplit_dot t) as [[b a]|]; simpl; [reflexivity|].
  rewrite eqb_dot_lower. destruct (Ascii.eqb c "."%char); reflexivity.
Qed.

Lemma extension_lower (p : string) :
  extension (to_lower p) = option_map to_lower (extension p).
Proof.
  unfold extension. rewrite file_name_lower.
  destruct (file_name p) as [f|]; simpl; [|reflexivity].
  rewrite eqb_lower_dotdot. destruct (String.eqb f ".."); [reflexivity|].
  rewrite rsplit_dot_lower. destruct (rsplit_dot f) as [[b a]|]; simpl; [|reflexivity].
  rewrite eqb_lower_empty. destruct (String.eqb b ""); reflexivity.
Qed.

(** [is_supported_image] accepts a path exactly when its file name is
    [stem.ext] with a non-empty [stem], [ext] the text after the last
    dot, and [ext] in any letter case one of [png], [jpg], [jpeg],
    [gif]: hidden files such as [.png], names without a dot, and paths
    ending in [..] are never images. *)
Theorem is_supported_image_iff (p : string) :
  is_supported_image p = true <->
  exists stem ext, file_name p = Some (stem ++ "." ++ ext) /\ stem <> "" /\
    ~ In "."%char (list_ascii_of_string ext) /\ In (to_lower ext) supported_exts.
Proof.
  unfold is_supported_image, extension. split.
  - destruct (file_name p) as [f|] eqn:Hf; [|discriminate].
    destruct (String.eqb f "..") eqn:Hdd; [discriminate|].
    destruct (rsplit_dot f) as [[b a]|] eqn:Hr; [|discriminate].
    destruct (String.eqb_spec b "") as [Hb|Hb]; [discriminate|].
    intros H. apply rsplit_dot_some in Hr. destruct Hr as [-> Ha].
    exists b, a. split; [reflexivity|]. split; [exact Hb|]. split; [exact Ha|].
    unfold supported_exts. simpl.
    repeat rewrite orb_true_iff in H. repeat rewrite String.eqb_eq in H. intuition.
  - intros (b & a & Hf & Hb & Ha & Hin). rewrite Hf.
    destruct (String.eqb_spec (b ++ "." ++ a) "..") as [Hdd|_].
    + exfalso. destruct b as [|c b']; [contradiction|].
      simpl in Hdd. injection Hdd as _ Hdd.
      destruct b' as [|c' b'']; simpl in Hdd.
      * injection Hdd as ->. simpl in Hin. intuition discriminate.
      * injection Hdd as _ Hdd. destruct b''; discriminate.
    + assert (Hr : rsplit_dot (b ++ "." ++ a) = Some (b, a)) by (apply rsplit_dot_some; auto).
      rewrite Hr. destruct (String.eqb_spec b "") as [Hb'|_]; [contradiction|].
      simpl in Hin. destruct Hin as [H|[H|[H|[H|[]]]]]; rewrite <- H; reflexivity.
Qed.

Lemma is_supported_image_iff_witness :
  is_supported_image "packs/default/images/Test.PNG" = true /\
  exists stem ext, file_name "packs/default/images/Test.PNG" = Some (stem ++ "." ++ ext) /\
    stem <> "" /\ ~ In "."%char (list_ascii_of_string ext) /\ In (to_lower ext) supported_exts.
Proof.
  split; [reflexivity|].
  apply (is_supported_image_iff "packs/default/images/Test.PNG"). reflexivity.
Defined.

(** The extension test ignores letter case: lowercasing the whole path
    never changes whether it counts as an image. *)
Theorem is_supported_image_case_insensitive (p : string) :
  is_supported_image (to_lower p) = is_supported_image p.
Proof.
  unfold is_supported_image. rewrite extension_lower.
  destruct (extension p) as [e|]; simpl; [rewrite to_lower_idem|]; reflexivity.
Qed.

End ImagePathExtra.

Module MessagesExtra.
Import Messages.
Open Scope Z_scope.

Definition nonempty (x : text) : bool := negb (match x with [] => true | _ => false end).

Lemma trim_end_snoc_ws (x : text) (w : Z) :
  is_whitespace w = true -> trim_end (x ++ [w]) = trim_end x.
Proof. intros Hw. unfold trim_end. rewrite rev_unit. simpl. rewrite Hw. reflexivity. Qed.

Lemma trim_snoc_ws (x : text) (w : Z) :
  is_whitespace w = true -> trim (x ++ [w]) = trim x.
Proof. intros Hw. unfold trim. rewrite trim_end_snoc_ws by exact Hw. reflexivity. Qed.

Lemma trim_strip_line (x : text) : trim (strip_line x) = trim x.
Proof.
  unfold strip_line, trim.
  assert (Hx : x = rev (rev x)) by (rewrite rev_involutive; reflexivity).
  destruct (rev x) as [|n r] eqn:E; [reflexivity|].
  destruct (Z.eqb_spec n 10) as [->|_]; [|reflexivity].
  rewrite Hx. simpl.
  rewrite trim_end_snoc_ws by reflexivity.
  destruct r as [|c r']; [reflexivity|].
  destruct (Z.eqb_spec c 13) as [->|_]; [|reflexivity].
  simpl. rewrite trim_end_snoc_ws by reflexivity. reflexivity.
Qed.

Definition cf (q : text) (ps : list text) : list text :=
  match ps with [] => [q] | x :: r => (q ++ x) :: r end.

Definition F (ps : list text) : list text := filter nonempty (map trim ps).

Lemma trim_nil : trim [] = [].
Proof. reflexivity. Qed.

Lemma F_cf_nil (ps : list text) : F (cf [] ps) = F ps.
Proof. destruct ps; reflexivity. Qed.

Lemma cf_cf (q : text) (c : Z) (ps : list text) : cf q (cf [c] ps) = cf (q ++ [c]) ps.
Proof. destruct ps; simpl; [reflexivity|]. rewrite <- app_assoc. reflexivity. Qed.

Lemma split_inclusive_nl_cons (c : Z) (t : text) :
  c <> 10 -> split_inclusive_nl (c :: t) = cf [c] (split_inclusive_nl t).
Proof.
  intros Hc. simpl. destruct (Z.eqb_spec c 10); [contradiction|].
  destruct (split_inclusive_nl t); reflexivity.
Qed.

Lemma split_nl_cons (c : Z) (t : text) :
  c <> 10 -> split_nl (c :: t) = cf [c] (split_nl t).
Proof.
  intros Hc. simpl. destruct (Z.eqb_spec c 10); [contradiction|].
  destruct (split_nl t); reflexivity.
Qed.

Lemma F_inclusive (l q : text) :
  F (cf q (split_inclusive_nl l)) = F (cf q (split_nl l)).
Proof.
  revert q. induction l as [|c t IH]; intros q.
  - simpl. rewrite app_nil_r. reflexivity.
  - destruct (Z.eqb_spec c 10) as [->|Hc].
    + change (split_inclusive_nl (10 :: t)) with ([10] :: split_inclusive_nl t).
      change (split_nl (10 :: t)) with ([] :: split_nl t).
      unfold cf. rewrite app_nil_r.
      unfold F. cbn [map filter]. rewrite trim_snoc_ws by reflexivity.
      fold (F (split_inclusive_nl t)). fold (F (split_nl t)).
      rewrite <- (F_cf_nil (split_inclusive_nl t)), <- (F_cf_nil (split_nl t)), IH.
      reflexivity.
    + rewrite split_inclusive_nl_cons, split_nl_cons by exact Hc.
      rewrite !cf_cf. apply IH.
Qed.

Lemma messages_of_split (l : text) : messages_of l = F (split_nl l).
Proof.
  unfold messages_of, lines. rewrite map_map.
  rewrite (map_ext (fun x => trim (strip_line x)) trim trim_strip_line).
  change (F (split_inclusive_nl l) = F (split_nl l)).
  rewrite <- (F_cf_nil (split_inclusive_nl l)), F_inclusive, F_cf_nil. reflexivity.
Qed.

Lemma split_nl_not_nil (l : text) : split_nl l <> [].
Proof.
  destruct l as [|c t]; simpl; [discriminate|].
  destruct (c =? 10); [discriminate|]. destruct (split_nl t); discriminate.
Qed.

Lemma split_nl_app (l1 l2 : text) :
  split_nl (l1 ++ 10 :: l2) = split_nl l1 ++ split_nl l2.
Proof.
  induction l1 as [|c t IH]; [reflexivity|].
  simpl. rewrite IH. destruct (c =? 10); [reflexivity|].
  destruct (split_nl t) as [|x rs] eqn:E; [exfalso; exact (split_nl_not_nil t E)|].
  reflexivity.
Qed.

Lemma split_nl_no_newline (l : text) : Forall (fun x => ~ In 10 x) (split_nl l).
Proof.
  induction l as [|c t IH]; simpl; [constructor; auto|].
  destruct (Z.eqb_spec c 10) as [->|Hc]; [constructor; auto|].
  destruct (split_nl t) as [|x rs]; [constructor; [intros [H|[]]; congruence|constructor]|].
  inversion IH; subst. constructor; [intros [H|H]; [congruence|auto]|assumption].
Qed.

Lemma split_nl_ws (l : text) :
  Forall (fun c => is_whitespace c = true) l <->
  Forall (Forall (fun c => is_whitespace c = true)) (split_nl l).
Proof.
  induction l as [|c t IH]; simpl.
  - split; intros _; repeat constructor.
  - destruct (Z.eqb_spec c 10) as [->|Hc].
    + split; intros H.
      * constructor; [constructor|]. apply IH. inversion H; assumption.
      * constructor; [reflexivity|]. apply IH. inversion H; assumption.
    + pose proof (split_nl_not_nil t) as Hn.
      destruct (split_nl t) as [|x rs]; [contradiction|].
      split; intros H.
      * inversion H as [|? ? Hc' Ht]; subst. apply IH in Ht. inversion Ht; subst.
        constructor; [constructor; assumption|assumption].
      * inversion H as [|? ? Hx Hrs]; subst. inversion Hx; subst.
        constructor; [assumption|]. apply IH. constructor; assumption.
Qed.

Lemma trim_start_ws (l : text) :
  trim_start l = [] <-> Forall (fun c => is_whitespace c = true) l.
Proof.
  induction l as [|c t IH]; simpl; [split; auto|].
  destruct (is_whitespace c) eqn:Hc.
  - rewrite IH. split; [intros H; constructor; assumption|intros H; inversion H; assumption].
  - split; [discriminate|]. intros H. inversion H; congruence.
Qed.

Lemma trim_start_head (l : text) :
  trim_start l = [] \/ exists c r, trim_start l = c :: r /\ is_whitespace c = false.
Proof.
  induction l as [|c t IH]; simpl; [left; reflexivity|].
  destruct (is_whitespace c) eqn:Hc; [exact IH|right; exists c, t; auto].
Qed.

Lemma trim_end_ws (l : text) :
  trim_end l = [] <-> Forall (fun c => is_whitespace c = true) l.
Proof.
  unfold trim_end. split.
  - intros H. apply (f_equal (@rev Z)) in H. rewrite rev_involutive in H.
    apply trim_start_ws in H. apply Forall_rev in H. rewrite rev_involutive in H. exact H.
  - intros H. apply Forall_rev, trim_start_ws in H. rewrite H. reflexivity.
Qed.

Lemma trim_ws (l : text) :
  trim l = [] <-> Forall (fun c => is_whitespace c = true) l.
Proof.
  unfold trim. rewrite <- trim_end_ws. split; [|intros ->; reflexivity].
  intros H. apply trim_start_ws in H. unfold trim_end in *.
  destruct (trim_start_head (rev l)) as [E|(c & r & E & Hc)]; [rewrite E; reflexivity|].
  exfalso. rewrite E in H. apply Forall_rev in H. rewrite rev_involutive in H. inversion H; congruence.
Qed.

Lemma F_nil (ps : list text) :
  F ps = [] <-> Forall (fun x => trim x = []) ps.
Proof.
  unfold F. induction ps as [|x ps IH]; simpl; [split; auto|].
  destruct (trim x) as [|c r] eqn:E; simpl.
  - rewrite IH. split; [intros H; constructor; assumption|intros H; inversion H; assumption].
  - split; [discriminate|]. intros H. inversion H; congruence.
Qed.

Lemma messages_of_nil (l : text) :
  messages_of l = [] <-> Forall (fun c => is_whitespace c = true) l.
Proof.
  rewrite messages_of_split, F_nil, split_nl_ws.
  split; intros H; eapply Forall_impl; try exact H; intros x Hx; apply trim_ws; exact Hx.
Qed.

Lemma trim_start_in (l : text) (c : Z) : In c (trim_start l) -> In c l.
Proof.
  induction l as [|d t IH]; simpl; [tauto|].
  destruct (is_whitespace d); [intros H; right; auto|tauto].
Qed.

Lemma trim_in (l : text) (c : Z) : In c (trim l) -> In c l.
Proof.
  unfold trim, trim_end. intros H. apply trim_start_in in H.
  apply in_rev in H. apply trim_start_in in H. apply in_rev. exact H.
Qed.

Lemma trim_start_snoc (y : text) (c : Z) :
  is_whitespace c = false -> exists z, trim_start (y ++ [c]) = z ++ [c].
Proof.
  intros Hc. induction y as [|d t IH]; simpl.
  - rewrite Hc. exists []. reflexivity.
  - destruct (is_whitespace d); [exact IH|exists (d :: t); reflexivity].
Qed.

Lemma trim_ends (x : text) :
  trim x <> [] ->
  is_whitespace (hd 0 (trim x)) = false /\ is_whitespace (last (trim x) 0) = false.
Proof.
  intros Hne. split.
  - unfold trim in *. destruct (trim_start_head (trim_end x)) as [E|(c & r & E & Hc)];
      [contradiction|]. rewrite E. exact Hc.
  - unfold trim, trim_end in *.
    destruct (trim_start_head (rev x)) as [E|(c & r & E & Hc)];
      [rewrite E in Hne; contradiction|].
    rewrite E in *. simpl in *.
    destruct (trim_start_snoc (rev r) c Hc) as [z Ez]. rewrite Ez. rewrite last_last. exact Hc.
Qed.

Lemma messages_of_lines (l m : text) :
  In m (messages_of l) ->
  m <> [] /\ ~ In 10 m /\ is_whitespace (hd 0 m) = false /\ is_whitespace (last m 0) = false.
Proof.
  rewrite messages_of_split. unfold F. intros H.
  apply filter_In in H. destruct H as [Hm Hne].
  apply in_map_iff in Hm. destruct Hm as [x [<- Hx]].
  assert (Hn : trim x <> []) by (intros E; rewrite E in Hne; discriminate).
  split; [exact Hn|]. split.
  - intros Hi. apply trim_in in Hi.
    pose proof (split_nl_no_newline l) as Hf. rewrite Forall_forall in Hf. exact (Hf x Hx Hi).
  - apply trim_ends. exact Hn.
Qed.

(** Every message read from [messages.txt] is a non-empty line of the
    file without its line ending and with no whitespace at either end. *)
Theorem read_messages_trimmed (f : msg_file) (m : text) :
  In m (read_messages_file f) ->
  m <> [] /\ ~ In 10 m /\ is_whitespace (hd 0 m) = false /\ is_whitespace (last m 0) = false.
Proof.
  destruct f as [| |contents]; simpl; [tauto|tauto|]. apply messages_of_lines.
Qed.

Lemma read_messages_trimmed_witness :
  In (text_of_string "hi") (read_messages_file (MsgContents (text_of_string " hi " ++ [13; 10]))) /\
  text_of_string "hi" <> [] /\ ~ In 10 (text_of_string "hi") /\
  is_whitespace (hd 0 (text_of_string "hi")) = false /\
  is_whitespace (last (text_of_string "hi") 0) = false.
Proof.
  assert (H : In (text_of_string "hi") (read_messages_file (MsgContents (text_of_string " hi " ++ [13; 10]))))
    by (left; reflexivity).
  split; [exact H|]. exact (read_messages_trimmed _ _ H).
Defined.

(** A pack has no messages exactly when [messages.txt] is missing,
    unreadable, or holds nothing but whitespace (newlines included). *)
Theorem read_messages_empty_iff (f : msg_file) :
  read_messages_file f = [] <->
  f = MsgMissing \/ f = MsgUnreadable \/
  exists contents, f = MsgContents contents /\ Forall (fun c => is_whitespace c = true) contents.
Proof.
  destruct f as [| |contents]; simpl.
  - split; [left; reflexivity|reflexivity].
  - split; [right; left; reflexivity|reflexivity].
  - rewrite messages_of_nil. split.
    + intros H. right; right. exists contents. auto.
    + intros [H|[H|(c & H & Hc)]]; [discriminate|discriminate|]. injection H as <-. exact Hc.
Qed.

(** Messages of two texts joined by a newline are the messages of the
    first followed by those of the second: lines are read independently,
    whatever line endings ([\n] or [\r\n]) they had. *)
Theorem messages_of_app (l1 l2 : text) :
  messages_of (l1 ++ 10 :: l2) = messages_of l1 ++ messages_of l2.
Proof.
  rewrite !messages_of_split, split_nl_app. unfold F. rewrite map_app, filter_app. reflexivity.
Qed.

End MessagesExtra.

Module ConfigExtra.
Import RowBudget Config.
Open Scope Z_scope.

Lemma default_ratio_ok : ratio_ok ratio_055.
Proof. unfold ratio_ok, ratio_055. simpl. lia. Qed.

Lemma kept_ratio_ok (neg : bool) (x : f32) :
  f32_valid x -> le_zero (Fin neg x) = false -> gt_one (Fin neg x) = false ->
  neg = false /\ ratio_ok x.
Proof.
  unfold f32_valid, ratio_ok. simpl. intros [[Hm0 Hm1] [He0 He1]] Hz Hg.
  apply orb_false_iff in Hz. destruct Hz as [-> Hz]. split; [reflexivity|].
  apply Z.eqb_neq in Hz.
  destruct (Z.leb_spec 0 (fe x)) as [He|He].
  - apply Z.ltb_ge in Hg.
    assert (Hfe : fe x = 0).
    { destruct (Z.eq_dec (fe x) 0) as [E|E]; [exact E|exfalso].
      assert (H2 : 2 ^ 1 <= 2 ^ fe x) by (apply Z.pow_le_mono_r; lia).
      simpl in H2. nia. }
    rewrite Hfe in *. simpl in *. lia.
  - apply Z.ltb_ge in Hg. lia.
Qed.

(** After [load_config], [cache_max_mb] is never 0 and the height ratio
    is in (0, 1] or NaN: [<= 0.0] and [> 1.0] are both false on NaN, so
    a NaN ratio in [config.toml] is kept. *)
Theorem load_config_normalised (src : config_source) (c : Config) :
  (forall c0 neg x, src = Parsed c0 -> max_height_ratio c0 = Fin neg x -> f32_valid x) ->
  load_config src = inl c ->
  cache_max_mb c <> 0%N /\
  (max_height_ratio c = NaN \/ exists x, max_height_ratio c = Fin false x /\ ratio_ok x).
Proof.
  intros Hv. destruct src as [| | | |c0]; simpl; try discriminate.
  - intros H. injection H as <-. split; [intros E; vm_compute in E; discriminate E|right; exists ratio_055; split; [reflexivity|exact default_ratio_ok]].
  - intros H. injection H as <-. split; [intros E; vm_compute in E; discriminate E|right; exists ratio_055; split; [reflexivity|exact default_ratio_ok]].
  - intros H. injection H as <-.
    destruct (le_zero (max_height_ratio c0) || gt_one (max_height_ratio c0)) eqn:E.
    + split; [destruct (N.eqb_spec (cache_max_mb (set_ratio c0 DEFAULT_MAX_HEIGHT_RATIO)) 0); simpl in *;
                unfold DEFAULT_CACHE_MAX_MB; lia|].
      right. exists ratio_055.
      destruct (cache_max_mb (set_ratio c0 DEFAULT_MAX_HEIGHT_RATIO) =? 0)%N; simpl;
        (split; [reflexivity|exact default_ratio_ok]).
    + apply orb_false_iff in E. destruct E as [E1 E2].
      assert (Hr : max_height_ratio c0 = NaN \/
                   exists x, max_height_ratio c0 = Fin false x /\ ratio_ok x).
      { destruct (max_height_ratio c0) as [neg x|neg|] eqn:Er.
        - right. destruct (kept_ratio_ok neg x (Hv c0 neg x eq_refl Er) E1 E2) as [-> Hx].
          exists x. auto.
        - exfalso. simpl in E1, E2. subst neg. discriminate.
        - left. reflexivity. }
      destruct (N.eqb_spec (cache_max_mb c0) 0); simpl;
        [split; [unfold DEFAULT_CACHE_MAX_MB; lia|exact Hr]|split; assumption].
Qed.

Definition nan_config : Config := set_ratio default_config NaN.

Lemma load_config_normalised_witness :
  (forall c0 neg x, Parsed (set_cache_max_mb nan_config 0) = Parsed c0 ->
     max_height_ratio c0 = Fin neg x -> f32_valid x) /\
  load_config (Parsed (set_cache_max_mb nan_config 0)) = inl (set_cache_max_mb nan_config 64) /\
  cache_max_mb (set_cache_max_mb nan_config 64) <> 0%N /\
  (max_height_ratio (set_cache_max_mb nan_config 64) = NaN \/
   exists x, max_height_ratio (set_cache_max_mb nan_config 64) = Fin false x /\ ratio_ok x).
Proof.
  assert (Hv : forall c0 neg x, Parsed (set_cache_max_mb nan_config 0) = Parsed c0 ->
                 max_height_ratio c0 = Fin neg x -> f32_valid x).
  { intros c0 neg x H. injection H as <-. simpl. discriminate. }
  assert (Hl : load_config (Parsed (set_cache_max_mb nan_config 0)) = inl (set_cache_max_mb nan_config 64))
    by reflexivity.
  split; [exact Hv|]. split; [exact Hl|].
  exact (load_config_normalised _ _ Hv Hl).
Defined.

End ConfigExtra.

Module FindChafaExtra.
Import Str FindChafa.
Open Scope string_scope.

Section Search.

Variable is_file : string -> bool.

Lemma search_some (dirs : list string) (full : string) :
  search is_file dirs = Some full <->
  exists pre d post, dirs = (pre ++ d :: post)%list /\ full = join d candidate /\
    is_file full = true /\ Forall (fun d' => is_file (join d' candidate) = false) pre.
Proof.
  split.
  - induction dirs as [|d0 ds IH]; simpl; [discriminate|].
    destruct (is_file (join d0 candidate)) eqn:E.
    + intros H. injection H as <-. exists [], d0, ds. auto.
    + intros H. destruct (IH H) as (pre & d & post & -> & Hf & Hi & Hpre).
      exists (d0 :: pre), d, post. auto.
  - intros (pre & d & post & -> & -> & Hi & Hpre). induction pre as [|d0 pre IH]; simpl.
    + rewrite Hi. reflexivity.
    + inversion Hpre as [|? ? H0 Hpre']; subst. rewrite H0. apply IH. exact Hpre'.
Qed.

Lemma search_none (dirs : list string) :
  search is_file dirs = None <-> Forall (fun d => is_file (join d candidate) = false) dirs.
Proof.
  induction dirs as [|d0 ds IH]; simpl; [split; auto|].
  destruct (is_file (join d0 candidate)) eqn:E.
  - split; [discriminate|]. intros H. inversion H; congruence.
  - rewrite IH. split; [intros H; constructor; assumption|intros H; inversion H; assumption].
Qed.

End Search.

(** Without [LEFTYSAY_CHAFA], [find_chafa] returns [dir.join("chafa")]
    for the first [PATH] entry [dir] where that is a file, checking the
    entries in order (an empty entry stands for the working directory:
    it yields the relative path [chafa]). *)
Theorem find_chafa_first_on_path (is_file : string -> bool) (os paths full : string) :
  find_chafa is_file os None (Some paths) = inl full <->
  exists pre dir post, split_on ":"%char paths = (pre ++ dir :: post)%list /\
    full = join dir candidate /\ is_file full = true /\
    Forall (fun d => is_file (join d candidate) = false) pre.
Proof.
  unfold find_chafa. rewrite <- search_some.
  destruct (search is_file (split_on ":"%char paths)) as [f|].
  - split; intros H; [injection H as <-|injection H as ->]; reflexivity.
  - split; discriminate.
Qed.

(** [find_chafa] fails exactly when [LEFTYSAY_CHAFA] is unset and no
    [PATH] entry holds a [chafa] file (or [PATH] is unset); the error
    names the install command for the platform. *)
Theorem find_chafa_error_iff (is_file : string -> bool) (os : string)
    (chafa_env path_env : option string) (msg : string) :
  find_chafa is_file os chafa_env path_env = inr msg <->
  chafa_env = None /\ msg = "leftysay requires chafa. " ++ install_hint os /\
  (path_env = None \/ exists paths, path_env = Some paths /\
     Forall (fun d => is_file (join d candidate) = false) (split_on ":"%char paths)).
Proof.
  unfold find_chafa. destruct chafa_env as [p|].
  - split; [discriminate|intros [H _]; discriminate].
  - destruct path_env as [paths|].
    + destruct (search is_file (split_on ":"%char paths)) as [f|] eqn:E.
      * split; [discriminate|]. intros (_ & _ & [H|(ps & H & Hf)]); [discriminate|].
        injection H as <-. apply search_none in Hf. congruence.
      * split.
        -- intros H. injection H as <-. split; [reflexivity|]. split; [reflexivity|].
           right. exists paths. split; [reflexivity|]. apply search_none. exact E.
        -- intros (_ & -> & _). reflexivity.
    + split.
      * intros H. injection H as <-. auto.
      * intros (_ & -> & _). reflexivity.
Qed.

End FindChafaExtra.

Module PacksExtra.
Import Str Packs.
Open Scope list_scope.

Definition pname (p : Pack) : string := name (meta p).

Lemma not_in_seen (x : string) (l : list string) :
  existsb (String.eqb x) l = false -> ~ In x l.
Proof.
  intros H Hin. assert (E : existsb (String.eqb x) l = true).
  { apply existsb_exists. exists x. split; [exact Hin|apply String.eqb_refl]. }
  congruence.
Qed.

Lemma in_seen (x : string) (l : list string) :
  existsb (String.eqb x) l = true -> In x l.
Proof.
  intros H. apply existsb_exists in H. destruct H as (y & Hy & E).
  apply String.eqb_eq in E. subst y. exact Hy.
Qed.

Lemma find_pack_some (ps : list Pack) (n : string) (p : Pack) :
  find_pack ps n = Some p -> In p ps /\ pname p = n.
Proof.
  unfold find_pack. intros H. destruct (find_some _ _ H) as [Hin E].
  apply String.eqb_eq in E. auto.
Qed.

Lemma index_ok {A : Type} (l : list A) (i : nat) :
  (i < List.length l)%nat -> exists x, index l i = Ok x /\ In x l.
Proof.
  intros Hi. unfold index.
  destruct (nth_error l i) as [x|] eqn:E.
  - exists x. split; [reflexivity|]. eapply nth_error_In. exact E.
  - apply nth_error_None in E. lia.
Qed.

Section Scanning.

Variable path_exists : string -> bool.
Variable walkdir : option nat -> string -> list dir_entry.
Variable parent_or_self : string -> string.
Variable read_pack_meta : string -> option PackMeta.
Variable msg_file : string -> Messages.msg_file.

Local Abbreviation SCAN := (scan path_exists walkdir parent_or_self read_pack_meta msg_file).
Local Abbreviation COLLECT := (collect_images path_exists walkdir).
Local Abbreviation READMSG := (read_messages path_exists msg_file).

Lemma scan_inv (es : list dir_entry) (seen : list string) (ps : list Pack) :
  SCAN seen es = Some ps ->
  NoDup (map pname ps) /\ Forall (fun p => ~ In (pname p) seen) ps /\
  Forall (fun p => images p <> []) ps.
Proof.
  revert seen ps. induction es as [|e es IH]; intros seen ps H; simpl in H.
  - injection H as <-. repeat split; constructor.
  - destruct (String.eqb (de_file_name e) "pack.toml"); [|exact (IH _ _ H)].
    destruct (read_pack_meta (de_path e)) as [m|]; [|discriminate].
    destruct (existsb (String.eqb (name m)) seen) eqn:Hs; [exact (IH _ _ H)|].
    destruct (COLLECT (parent_or_self (de_path e)) (images_dir m)) as [|i is] eqn:Hc;
      [exact (IH _ _ H)|].
    destruct (SCAN (name m :: seen) es) as [ps'|] eqn:Hr; [|discriminate].
    simpl in H. injection H as <-.
    destruct (IH _ _ Hr) as (Hnd & Hns & Hni).
    split; [|split].
    + simpl. constructor; [|exact Hnd].
      intros Hin. apply in_map_iff in Hin. destruct Hin as (q & Eq & Hq).
      rewrite Forall_forall in Hns. apply (Hns q Hq). rewrite Eq. left. reflexivity.
    + constructor; [exact (not_in_seen _ _ Hs)|].
      eapply Forall_impl; [|exact Hns]. intros q Hq Hin. apply Hq. right. exact Hin.
    + constructor; [simpl; discriminate|exact Hni].
Qed.

Lemma scan_none (es : list dir_entry) (seen : list string) :
  SCAN seen es = None <->
  exists e, In e es /\ de_file_name e = "pack.toml"%string /\ read_pack_meta (de_path e) = None.
Proof.
  split.
  - revert seen. induction es as [|e es IH]; intros seen H; simpl in H; [discriminate|].
    destruct (String.eqb_spec (de_file_name e) "pack.toml") as [Hf|Hf].
    + destruct (read_pack_meta (de_path e)) as [m|] eqn:Hm.
      * destruct (existsb (String.eqb (name m)) seen).
        -- destruct (IH _ H) as (e' & ? & ? & ?). exists e'. simpl. auto.
        -- destruct (COLLECT (parent_or_self (de_path e)) (images_dir m)).
           ++ destruct (IH _ H) as (e' & ? & ? & ?). exists e'. simpl. auto.
           ++ destruct (SCAN (name m :: seen) es) eqn:Hr; [discriminate|].
              destruct (IH _ Hr) as (e' & ? & ? & ?). exists e'. simpl. auto.
      * exists e. simpl. auto.
    + destruct (IH _ H) as (e' & ? & ? & ?). exists e'. simpl. auto.
  - intros (e' & Hin & Hf & Hm). revert seen.
    induction es as [|e es IH]; [destruct Hin|]. intros seen.
    destruct Hin as [<-|Hin].
    + simpl. apply String.eqb_eq in Hf. rewrite Hf, Hm. reflexivity.
    + specialize (IH Hin). simpl.
      destruct (String.eqb (de_file_name e) "pack.toml"); [|apply IH].
      destruct (read_pack_meta (de_path e)) as [m|]; [|reflexivity].
      destruct (existsb (String.eqb (name m)) seen); [apply IH|].
      destruct (COLLECT (parent_or_self (de_path e)) (images_dir m)); [apply IH|].
      rewrite IH. reflexivity.
Qed.

Lemma scan_origin (es : list dir_entry) (seen : list string) (ps : list Pack) (p : Pack) :
  SCAN seen es = Some ps -> In p ps ->
  exists pre e post, es = pre ++ e :: post /\
    de_file_name e = "pack.toml"%string /\
    read_pack_meta (de_path e) = Some (meta p) /\
    images p = COLLECT (parent_or_self (de_path e)) (images_dir (meta p)) /\
    messages p = READMSG (parent_or_self (de_path e)) /\
    (forall e' m', In e' pre -> de_file_name e' = "pack.toml"%string ->
       read_pack_meta (de_path e') = Some m' -> name m' = pname p ->
       COLLECT (parent_or_self (de_path e')) (images_dir m') = []).
Proof.
  revert seen ps. induction es as [|e0 es IH]; intros seen ps H Hp; simpl in H.
  - injection H as <-. destruct Hp.
  - destruct (String.eqb_spec (de_file_name e0) "pack.toml") as [Hf|Hf].
    + destruct (read_pack_meta (de_path e0)) as [m|] eqn:Hm; [|discriminate].
      destruct (existsb (String.eqb (name m)) seen) eqn:Hs.
      * destruct (IH _ _ H Hp) as (pre & e & post & -> & Hfe & Hme & Hi & Hms & Hpre).
        exists (e0 :: pre), e, post. do 5 (split; [assumption || reflexivity|]).
        intros e' m' [<-|Hin'] Hf' Hm' Hn'; [|exact (Hpre e' m' Hin' Hf' Hm' Hn')].
        exfalso. rewrite Hm in Hm'. injection Hm' as <-.
        destruct (scan_inv _ _ _ H) as (_ & Hns & _). rewrite Forall_forall in Hns.
        apply (Hns p Hp). rewrite <- Hn'. exact (in_seen _ _ Hs).
      * destruct (COLLECT (parent_or_self (de_path e0)) (images_dir m)) as [|i is] eqn:Hc.
        -- destruct (IH _ _ H Hp) as (pre & e & post & -> & Hfe & Hme & Hi & Hms & Hpre).
           exists (e0 :: pre), e, post. do 5 (split; [assumption || reflexivity|]).
           intros e' m' [<-|Hin'] Hf' Hm' Hn'; [|exact (Hpre e' m' Hin' Hf' Hm' Hn')].
           rewrite Hm in Hm'. injection Hm' as <-. exact Hc.
        -- destruct (SCAN (name m :: seen) es) as [ps'|] eqn:Hr; [|discriminate].
           simpl in H. injection H as <-. destruct Hp as [<-|Hp].
           ++ exists [], e0, es. simpl. split; [reflexivity|]. split; [exact Hf|].
              split; [exact Hm|]. split; [symmetry; exact Hc|]. split; [reflexivity|].
              intros e' m' [].
           ++ destruct (IH _ _ Hr Hp) as (pre & e & post & -> & Hfe & Hme & Hi & Hms & Hpre).
              exists (e0 :: pre), e, post. do 5 (split; [assumption || reflexivity|]).
              intros e' m' [<-|Hin'] Hf' Hm' Hn'; [|exact (Hpre e' m' Hin' Hf' Hm' Hn')].
              exfalso. rewrite Hm in Hm'. injection Hm' as <-.
              destruct (scan_inv _ _ _ Hr) as (_ & Hns & _). rewrite Forall_forall in Hns.
              apply (Hns p Hp). left. exact Hn'.
    + destruct (IH _ _ H Hp) as (pre & e & post & -> & Hfe & Hme & Hi & Hms & Hpre).
      exists (e0 :: pre), e, post. do 5 (split; [assumption || reflexivity|]).
      intros e' m' [<-|Hin'] Hf' Hm' Hn'; [contradiction|exact (Hpre e' m' Hin' Hf' Hm' Hn')].
Qed.

Lemma scan_complete (es : list dir_entry) (seen : list string) (ps : list Pack)
    (e : dir_entry) (m : PackMeta) :
  SCAN seen es = Some ps -> In e es -> de_file_name e = "pack.toml"%string ->
  read_pack_meta (de_path e) = Some m ->
  COLLECT (parent_or_self (de_path e)) (images_dir m) <> [] ->
  In (name m) seen \/ In (name m) (map pname ps).
Proof.
  revert seen ps. induction es as [|e0 es IH]; intros seen ps H Hin Hf Hm Hc; [destruct Hin|].
  destruct Hin as [->|Hin].
  - simpl in H. apply String.eqb_eq in Hf. rewrite Hf, Hm in H.
    destruct (existsb (String.eqb (name m)) seen) eqn:Hs; [left; exact (in_seen _ _ Hs)|].
    destruct (COLLECT (parent_or_self (de_path e)) (images_dir m)) as [|i is]; [contradiction|].
    destruct (SCAN (name m :: seen) es); [|discriminate].
    simpl in H. injection H as <-. right. left. reflexivity.
  - simpl in H.
    destruct (String.eqb (de_file_name e0) "pack.toml"); [|exact (IH _ _ H Hin Hf Hm Hc)].
    destruct (read_pack_meta (de_path e0)) as [m0|]; [|discriminate].
    destruct (existsb (String.eqb (name m0)) seen); [exact (IH _ _ H Hin Hf Hm Hc)|].
    destruct (COLLECT (parent_or_self (de_path e0)) (images_dir m0)) as [|i is];
      [exact (IH _ _ H Hin Hf Hm Hc)|].
    destruct (SCAN (name m0 :: seen) es) as [ps'|] eqn:Hr; [|discriminate].
    simpl in H. injection H as <-.
    destruct (IH _ _ Hr Hin Hf Hm Hc) as [[<-|Hs]|Hps].
    + right. left. reflexivity.
    + left. exact Hs.
    + right. right. exact Hps.
Qed.

Lemma collect_supported (root dir path : string) :
  In path (COLLECT root dir) -> ImagePath.is_supported_image path = true.
Proof.
  unfold collect_images. destruct (path_exists (join root dir)); simpl; [|tauto].
  intros H. apply in_map_iff in H. destruct H as (e & <- & He).
  apply filter_In in He. destruct He as [_ He]. apply andb_true_iff in He. tauto.
Qed.

Lemma read_messages_lines (root : string) (m : Messages.text) :
  In m (READMSG root) ->
  m <> [] /\ ~ In 10%Z m /\ Messages.is_whitespace (hd 0%Z m) = false /\
  Messages.is_whitespace (last m 0%Z) = false.
Proof.
  unfold read_messages. destruct (path_exists (join root "messages.txt")); simpl; [|tauto].
  destruct (msg_file (join root "messages.txt")) as [| |contents]; simpl; [tauto|tauto|].
  apply MessagesExtra.messages_of_lines.
Qed.

Lemma scan_packs_inv (bases : list string) (ps : list Pack) :
  scan_packs path_exists walkdir parent_or_self read_pack_meta msg_file bases = Some ps ->
  NoDup (map pname ps) /\
  Forall (fun p => images p <> [] /\
            Forall (fun path => ImagePath.is_supported_image path = true) (images p) /\
            Forall (fun m => m <> [] /\ ~ In 10%Z m /\
                       Messages.is_whitespace (hd 0%Z m) = false /\
                       Messages.is_whitespace (last m 0%Z) = false) (messages p)) ps.
Proof.
  unfold scan_packs. intros H. destruct (scan_inv _ _ _ H) as (Hnd & _ & Hni).
  split; [exact Hnd|]. apply Forall_forall. intros p Hp.
  rewrite Forall_forall in Hni. split; [exact (Hni p Hp)|].
  destruct (scan_origin _ _ _ _ H Hp) as (pre & e & post & _ & _ & _ & Hi & Hms & _).
  split; apply Forall_forall.
  - intros path Hpath. rewrite Hi in Hpath. exact (collect_supported _ _ _ Hpath).
  - intros m Hm. rewrite Hms in Hm. exact (read_messages_lines _ _ Hm).
Qed.

(** The packs [scan_packs] returns have distinct names; each has at
    least one image, every image path has a supported extension, and
    every message is a non-empty trimmed line. *)
Theorem scan_packs_invariants (bases : list string) (ps : list Pack) :
  scan_packs path_exists walkdir parent_or_self read_pack_meta msg_file bases = Some ps ->
  NoDup (map pname ps) /\
  Forall (fun p => images p <> [] /\
            Forall (fun path => ImagePath.is_supported_image path = true) (images p) /\
            Forall (fun m => m <> [] /\ ~ In 10%Z m /\
                       Messages.is_whitespace (hd 0%Z m) = false /\
                       Messages.is_whitespace (last m 0%Z) = false) (messages p)) ps.
Proof. exact (scan_packs_inv bases ps). Qed.

(** One [pack.toml] that cannot be read or parsed, anywhere in the
    search paths, makes the whole scan fail, even after packs were
    found; nothing else does. *)
Theorem scan_packs_error_iff (bases : list string) :
  scan_packs path_exists walkdir parent_or_self read_pack_meta msg_file bases = None <->
  exists e, In e (walk_entries path_exists walkdir bases) /\
    de_file_name e = "pack.toml"%string /\ read_pack_meta (de_path e) = None.
Proof. unfold scan_packs. apply scan_none. Qed.

(** Each pack comes from a [pack.toml] entry of the walk, with the
    images and messages of that entry's directory; every earlier
    [pack.toml] with the same name had no image: the first pack of a
    name that has images wins, and a same-named pack without images
    does not shadow a later one. *)
Theorem scan_packs_first_wins (bases : list string) (ps : list Pack) (p : Pack) :
  scan_packs path_exists walkdir parent_or_self read_pack_meta msg_file bases = Some ps ->
  In p ps ->
  exists pre e post, walk_entries path_exists walkdir bases = pre ++ e :: post /\
    de_file_name e = "pack.toml"%string /\
    read_pack_meta (de_path e) = Some (meta p) /\
    images p = COLLECT (parent_or_self (de_path e)) (images_dir (meta p)) /\
    messages p = READMSG (parent_or_self (de_path e)) /\
    (forall e' m', In e' pre -> de_file_name e' = "pack.toml"%string ->
       read_pack_meta (de_path e') = Some m' -> name m' = pname p ->
       COLLECT (parent_or_self (de_path e')) (images_dir m') = []).
Proof. unfold scan_packs. apply scan_origin. Qed.

(** Every readable [pack.toml] of the walk whose images directory has a
    supported image gives a pack of its name. *)
Theorem scan_packs_complete (bases : list string) (ps : list Pack) (e : dir_entry) (m : PackMeta) :
  scan_packs path_exists walkdir parent_or_self read_pack_meta msg_file bases = Some ps ->
  In e (walk_entries path_exists walkdir bases) -> de_file_name e = "pack.toml"%string ->
  read_pack_meta (de_path e) = Some m ->
  COLLECT (parent_or_self (de_path e)) (images_dir m) <> [] ->
  In (name m) (map pname ps).
Proof.
  unfold scan_packs. intros H Hin Hf Hm Hc.
  destruct (scan_complete _ _ _ _ _ H Hin Hf Hm Hc) as [[]|Hps]. exact Hps.
Qed.

Lemma walk_entries_env (os env_dir : string) (homebrew_prefix data_dir : option string) :
  path_exists env_dir = true ->
  walk_entries path_exists walkdir
    (pack_search_paths path_exists os (Some env_dir) homebrew_prefix data_dir)
  = walkdir (Some 3) env_dir ++
    walk_entries path_exists walkdir
      (tl (pack_search_paths path_exists os (Some env_dir) homebrew_prefix data_dir)).
Proof. intros He. unfold walk_entries, pack_search_paths. simpl. rewrite He. reflexivity. Qed.

(** A pack under [LEFTYSAY_PACKS_DIR] (a readable [pack.toml] with a
    supported image) overrides the packs of the same name in the other
    search paths: the pack of that name in the result is one found under
    [LEFTYSAY_PACKS_DIR]. *)
Theorem scan_packs_env_override (os env_dir : string) (homebrew_prefix data_dir : option string)
    (ps : list Pack) (e : dir_entry) (m : PackMeta) :
  scan_packs path_exists walkdir parent_or_self read_pack_meta msg_file
    (pack_search_paths path_exists os (Some env_dir) homebrew_prefix data_dir) = Some ps ->
  path_exists env_dir = true ->
  In e (walkdir (Some 3) env_dir) -> de_file_name e = "pack.toml"%string ->
  read_pack_meta (de_path e) = Some m ->
  COLLECT (parent_or_self (de_path e)) (images_dir m) <> [] ->
  exists p e', In p ps /\ pname p = name m /\ In e' (walkdir (Some 3) env_dir) /\
    read_pack_meta (de_path e') = Some (meta p) /\
    images p = COLLECT (parent_or_self (de_path e')) (images_dir (meta p)).
Proof.
  intros H He Hin Hf Hm Hc. unfold scan_packs in H.
  rewrite (walk_entries_env _ _ _ _ He) in H.
  set (W := walkdir (Some 3) env_dir) in *.
  set (R := walk_entries path_exists walkdir
              (tl (pack_search_paths path_exists os (Some env_dir) homebrew_prefix data_dir))) in *.
  assert (HinW : In e (W ++ R)) by (apply in_or_app; left; exact Hin).
  destruct (scan_complete _ _ _ _ _ H HinW Hf Hm Hc) as [[]|Hn].
  apply in_map_iff in Hn. destruct Hn as (p & Hpn & Hp).
  destruct (scan_origin _ _ _ _ H Hp) as (pre & e0 & post & Heq & Hf0 & Hm0 & Hi0 & _ & Hpre).
  exists p, e0. split; [exact Hp|]. split; [exact Hpn|].
  split; [|split; assumption].
  assert (Hno : ~ In e pre).
  { intros Hep. apply Hc. exact (Hpre e m Hep Hf Hm (eq_sym Hpn)). }
  destruct (app_eq_app _ _ _ _ Heq) as (l & [[HW HR]|[Hpre' Hpost]]).
  - destruct l as [|x l'].
    + rewrite app_nil_r in HW. subst W. rewrite HW in Hin. contradiction.
    + rewrite HW. apply in_or_app. right. simpl in HR. injection HR as -> _. left. reflexivity.
  - exfalso. apply Hno. rewrite Hpre'. apply in_or_app. left. exact Hin.
Qed.

End Scanning.

Section Selecting.

Variable gen_range : option N -> nat -> nat.

Lemma pick_index_ok (Hgen : forall s n, (0 < n)%nat -> (gen_range s n < n)%nat)
    {A : Type} (l : list A) (seed : option N) :
  l <> [] ->
  exists x, match pick_index gen_range (List.length l) seed with
            | Ok idx => index l idx
            | Err e => Err e
            | Panic => Panic
            end = Ok x /\ In x l.
Proof.
  intros Hl. unfold pick_index.
  destruct (Nat.eqb_spec (List.length l) 0) as [E|E].
  - apply length_zero_iff_nil in E. contradiction.
  - apply index_ok. apply Hgen. lia.
Qed.

(** With a [gen_range] that stays in range, [resolve_message] never
    fails or panics: it returns the [--text] message, else a message of
    the first pack with the chosen name, else (no such pack, or one with
    no messages) the default message. *)
Theorem resolve_message_total (Hgen : forall s n, (0 < n)%nat -> (gen_range s n < n)%nat)
    (cli : Cli) (packs : list Pack) (config : Config.Config) (seed : option N) :
  exists m, resolve_message gen_range cli packs config seed = Ok m /\
    (text cli = Some m \/
     (text cli = None /\ exists p, find_pack packs (pack_name cli config) = Some p /\ In m (messages p)) \/
     (text cli = None /\ m = DEFAULT_MESSAGE /\
      forall p, find_pack packs (pack_name cli config) = Some p -> messages p = [])).
Proof.
  unfold resolve_message. destruct (text cli) as [t|] eqn:Ht.
  - exists t. auto.
  - destruct (find_pack packs (pack_name cli config)) as [p|] eqn:Hp.
    + destruct (messages p) as [|m0 ms] eqn:Hm.
      * exists DEFAULT_MESSAGE. split; [reflexivity|]. right. right.
        split; [reflexivity|]. split; [reflexivity|]. intros q Hq. injection Hq as <-. exact Hm.
      * rewrite <- Hm. destruct (pick_index_ok Hgen (messages p) seed) as (x & Hx & Hin);
          [rewrite Hm; discriminate|].
        exists x. split; [exact Hx|]. right. left. split; [reflexivity|]. exists p. auto.
    + exists DEFAULT_MESSAGE. split; [reflexivity|]. right. right.
      split; [reflexivity|]. split; [reflexivity|]. discriminate.
Qed.

(** Without [--image], [resolve_image] fails with ["pack not found: "]
    and the name when no pack has the chosen name, with ["no images
    available"] when the first pack of that name has no image, and
    otherwise returns one of that pack's images; it never panics. *)
Theorem resolve_image_cases (Hgen : forall s n, (0 < n)%nat -> (gen_range s n < n)%nat)
    (cli : Cli) (packs : list Pack) (config : Config.Config) (seed : option N) :
  image cli = None ->
  (find_pack packs (pack_name cli config) = None /\
   resolve_image gen_range cli packs config seed = Err ("pack not found: " ++ pack_name cli config)%string) \/
  (exists p, find_pack packs (pack_name cli config) = Some p /\ images p = [] /\
   resolve_image gen_range cli packs config seed = Err "no images available"%string) \/
  (exists p path, find_pack packs (pack_name cli config) = Some p /\
   resolve_image gen_range cli packs config seed = Ok path /\ In path (images p)).
Proof.
  intros Hi. unfold resolve_image. rewrite Hi.
  destruct (find_pack packs (pack_name cli config)) as [p|] eqn:Hp; [|left; auto].
  right. destruct (images p) as [|i is] eqn:Him.
  - left. exists p. split; [reflexivity|]. split; [exact Him|]. reflexivity.
  - right. rewrite <- Him.
    destruct (pick_index_ok Hgen (images p) seed) as (x & Hx & Hin); [intros E; congruence|].
    exists p, x. auto.
Qed.

End Selecting.

Lemma resolve_with_scanned
    (path_exists : string -> bool) (walkdir : option nat -> string -> list dir_entry)
    (parent_or_self : string -> string) (read_pack_meta : string -> option PackMeta)
    (msg_file : string -> Messages.msg_file) (gen_range : option N -> nat -> nat)
    (Hgen : forall s n, (0 < n)%nat -> (gen_range s n < n)%nat)
    (bases : list string) (ps : list Pack) (cli : Cli) (config : Config.Config) (seed : option N) :
  scan_packs path_exists walkdir parent_or_self read_pack_meta msg_file bases = Some ps ->
  (exists path, resolve_image gen_range cli ps config seed = Ok path /\
     (image cli = Some path \/ ImagePath.is_supported_image path = true)) \/
  (image cli = None /\ find_pack ps (pack_name cli config) = None /\
   resolve_image gen_range cli ps config seed = Err ("pack not found: " ++ pack_name cli config)%string).
Proof.
  intros Hs. destruct (scan_packs_inv _ _ _ _ _ _ _ Hs) as (_ & Hall).
  rewrite Forall_forall in Hall.
  destruct (image cli) as [path|] eqn:Hi.
  - left. exists path. unfold resolve_image. rewrite Hi. auto.
  - unfold resolve_image. rewrite Hi.
    destruct (find_pack ps (pack_name cli config)) as [p|] eqn:Hp; [|right; auto].
    left. destruct (find_pack_some _ _ _ Hp) as [Hin _].
    destruct (Hall p Hin) as (Hne & Hsup & _).
    destruct (pick_index_ok gen_range Hgen (images p) seed Hne) as (x & Hx & Hxin).
    exists x. split; [exact Hx|]. right. rewrite Forall_forall in Hsup. exact (Hsup x Hxin).
Qed.

(** [main] runs [scan_packs] and then [resolve_image] on its packs:
    the image is then the [--image] path or a file with a supported
    extension; the only error left is ["pack not found"], never ["no
    images available"] or a panic. *)
Theorem resolve_image_scanned
    (path_exists : string -> bool) (walkdir : option nat -> string -> list dir_entry)
    (parent_or_self : string -> string) (read_pack_meta : string -> option PackMeta)
    (msg_file : string -> Messages.msg_file) (gen_range : option N -> nat -> nat)
    (Hgen : forall s n, (0 < n)%nat -> (gen_range s n < n)%nat)
    (bases : list string) (ps : list Pack) (cli : Cli) (config : Config.Config) (seed : option N) :
  scan_packs path_exists walkdir parent_or_self read_pack_meta msg_file bases = Some ps ->
  (exists path, resolve_image gen_range cli ps config seed = Ok path /\
     (image cli = Some path \/ ImagePath.is_supported_image path = true)) \/
  (image cli = None /\ find_pack ps (pack_name cli config) = None /\
   resolve_image gen_range cli ps config seed = Err ("pack not found: " ++ pack_name cli config)%string).
Proof. apply resolve_with_scanned. exact Hgen. Qed.

(** A walk mirroring the test [scan_packs_reads_pack_meta_and_images],
    with a second, earlier [default] pack whose images directory is
    missing. *)
Definition w_exists (p : string) : bool := negb (String.eqb p "a/default/images").

Definition w_entry (path file : string) (is_file : bool) : dir_entry :=
  {| de_path := path; de_file_name := file; de_is_file := is_file |}.

Definition w_walk (depth : option nat) (root : string) : list dir_entry :=
  if String.eqb root "a" then [w_entry "a/default/pack.toml" "pack.toml" true]
  else if String.eqb root "b" then [w_entry "b/default/pack.toml" "pack.toml" true]
  else if String.eqb root "b/default/images" then
    [w_entry "b/default/images/test.png" "test.png" true;
     w_entry "b/default/images/notes.txt" "notes.txt" true]
  else [].

Definition w_parent (p : string) : string :=
  if String.eqb p "a/default/pack.toml" then "a/default"
  else if String.eqb p "b/default/pack.toml" then "b/default" else p.

Definition w_meta_default : PackMeta :=
  {| name := "default"; version := "0.1.0"; license := "CC0-1.0";
     description := "Test"; images_dir := "images" |}.

Definition w_meta (p : string) : option PackMeta := Some w_meta_default.

Definition w_msgs (p : string) : Messages.msg_file :=
  Messages.MsgContents (Messages.text_of_string "hello").

Definition w_pack : Pack :=
  {| meta := w_meta_default; images := ["b/default/images/test.png"];
     messages := [Messages.text_of_string "hello"] |}.

Definition w_cli : Cli :=
  {| text := None; image := None; pack := None; list' := false; doctor := false;
     no_bubble := false; seed := Some 7%N; cli_format := None; cli_colors := None;
     cli_max_height_ratio := None; cli_animate := false |}.

Lemma w_scan : scan_packs w_exists w_walk w_parent w_meta w_msgs ["a"; "b"] = Some [w_pack].
Proof. reflexivity. Qed.

Lemma w_gen : forall (s : option N) (n : nat), (0 < n)%nat -> (0 < n)%nat.
Proof. intros s n H. exact H. Qed.

Lemma scan_packs_invariants_witness :
  scan_packs w_exists w_walk w_parent w_meta w_msgs ["a"; "b"] = Some [w_pack] /\
  NoDup (map pname [w_pack]) /\
  Forall (fun p => images p <> [] /\
            Forall (fun path => ImagePath.is_supported_image path = true) (images p) /\
            Forall (fun m => m <> [] /\ ~ In 10%Z m /\
                       Messages.is_whitespace (hd 0%Z m) = false /\
                       Messages.is_whitespace (last m 0%Z) = false) (messages p)) [w_pack].
Proof.
  split; [exact w_scan|].
  exact (scan_packs_invariants w_exists w_walk w_parent w_meta w_msgs ["a"; "b"] [w_pack] w_scan).
Defined.

Lemma scan_packs_first_wins_witness :
  scan_packs w_exists w_walk w_parent w_meta w_msgs ["a"; "b"] = Some [w_pack] /\
  In w_pack [w_pack] /\
  exists pre e post, walk_entries w_exists w_walk ["a"; "b"] = pre ++ e :: post /\
    de_file_name e = "pack.toml"%string /\
    w_meta (de_path e) = Some (meta w_pack) /\
    images w_pack = collect_images w_exists w_walk (w_parent (de_path e)) (images_dir (meta w_pack)) /\
    messages w_pack = read_messages w_exists w_msgs (w_parent (de_path e)) /\
    (forall e' m', In e' pre -> de_file_name e' = "pack.toml"%string ->
       w_meta (de_path e') = Some m' -> name m' = pname w_pack ->
       collect_images w_exists w_walk (w_parent (de_path e')) (images_dir m') = []).
Proof.
  split; [exact w_scan|]. split; [left; reflexivity|].
  exact (scan_packs_first_wins w_exists w_walk w_parent w_meta w_msgs ["a"; "b"] [w_pack] w_pack
           w_scan (or_introl eq_refl)).
Defined.

Lemma scan_packs_complete_witness :
  scan_packs w_exists w_walk w_parent w_meta w_msgs ["a"; "b"] = Some [w_pack] /\
  In (w_entry "b/default/pack.toml" "pack.toml" true) (walk_entries w_exists w_walk ["a"; "b"]) /\
  collect_images w_exists w_walk (w_parent "b/default/pack.toml") (images_dir w_meta_default) <> [] /\
  In (name w_meta_default) (map pname [w_pack]).
Proof.
  assert (Hin : In (w_entry "b/default/pack.toml" "pack.toml" true) (walk_entries w_exists w_walk ["a"; "b"]))
    by (right; left; reflexivity).
  assert (Hc : collect_images w_exists w_walk (w_parent "b/default/pack.toml") (images_dir w_meta_default) <> [])
    by discriminate.
  split; [exact w_scan|]. split; [exact Hin|]. split; [exact Hc|].
  exact (scan_packs_complete w_exists w_walk w_parent w_meta w_msgs ["a"; "b"] [w_pack]
           (w_entry "b/default/pack.toml" "pack.toml" true) w_meta_default
           w_scan Hin eq_refl eq_refl Hc).
Defined.

Lemma resolve_message_total_witness :
  (forall (s : option N) (n : nat), (0 < n)%nat -> ((fun _ _ => 0%nat) s n < n)%nat) /\
  exists m, resolve_message (fun _ _ => 0%nat) w_cli [w_pack] Config.default_config (Some 7%N) = Ok m /\
    (text w_cli = Some m \/
     (text w_cli = None /\ exists p, find_pack [w_pack] (pack_name w_cli Config.default_config) = Some p /\
        In m (messages p)) \/
     (text w_cli = None /\ m = DEFAULT_MESSAGE /\
      forall p, find_pack [w_pack] (pack_name w_cli Config.default_config) = Some p -> messages p = [])).
Proof.
  split; [exact w_gen|].
  exact (resolve_message_total (fun _ _ => 0%nat) w_gen w_cli [w_pack] Config.default_config (Some 7%N)).
Defined.

Lemma resolve_image_cases_witness :
  (forall (s : option N) (n : nat), (0 < n)%nat -> ((fun _ _ => 0%nat) s n < n)%nat) /\
  image w_cli = None /\
  ((find_pack [w_pack] (pack_name w_cli Config.default_config) = None /\
    resolve_image (fun _ _ => 0%nat) w_cli [w_pack] Config.default_config None
      = Err ("pack not found: " ++ pack_name w_cli Config.default_config)%string) \/
   (exists p, find_pack [w_pack] (pack_name w_cli Config.default_config) = Some p /\ images p = [] /\
    resolve_image (fun _ _ => 0%nat) w_cli [w_pack] Config.default_config None
      = Err "no images available"%string) \/
   (exists p path, find_pack [w_pack] (pack_name w_cli Config.default_config) = Some p /\
    resolve_image (fun _ _ => 0%nat) w_cli [w_pack] Config.default_config None = Ok path /\
    In path (images p))).
Proof.
  split; [exact w_gen|]. split; [reflexivity|].
  exact (resolve_image_cases (fun _ _ => 0%nat) w_gen w_cli [w_pack] Config.default_config None eq_refl).
Defined.

Lemma resolve_image_scanned_witness :
  (forall (s : option N) (n : nat), (0 < n)%nat -> ((fun _ _ => 0%nat) s n < n)%nat) /\
  scan_packs w_exists w_walk w_parent w_meta w_msgs ["a"; "b"] = Some [w_pack] /\
  ((exists path, resolve_image (fun _ _ => 0%nat) w_cli [w_pack] Config.default_config None = Ok path /\
     (image w_cli = Some path \/ ImagePath.is_supported_image path = true)) \/
   (image w_cli = None /\ find_pack [w_pack] (pack_name w_cli Config.default_config) = None /\
    resolve_image (fun _ _ => 0%nat) w_cli [w_pack] Config.default_config None
      = Err ("pack not found: " ++ pack_name w_cli Config.default_config)%string)).
Proof.
  split; [exact w_gen|]. split; [exact w_scan|].
  exact (resolve_image_scanned w_exists w_walk w_parent w_meta w_msgs (fun _ _ => 0%nat) w_gen
           ["a"; "b"] [w_pack] w_cli Config.default_config None w_scan).
Defined.

Lemma scan_packs_env_override_witness :
  scan_packs w_exists w_walk w_parent w_meta w_msgs
    (pack_search_paths w_exists "linux" (Some "b"%string) None None) = Some [w_pack] /\
  exists p e', In p [w_pack] /\ pname p = name w_meta_default /\ In e' (w_walk (Some 3) "b"%string) /\
    w_meta (de_path e') = Some (meta p) /\
    images p = collect_images w_exists w_walk (w_parent (de_path e')) (images_dir (meta p)).
Proof.
  assert (Hs : scan_packs w_exists w_walk w_parent w_meta w_msgs
                 (pack_search_paths w_exists "linux" (Some "b"%string) None None) = Some [w_pack])
    by reflexivity.
  split; [exact Hs|].
  apply (scan_packs_env_override w_exists w_walk w_parent w_meta w_msgs "linux" "b" None None
           [w_pack] (w_entry "b/default/pack.toml" "pack.toml" true) w_meta_default Hs eq_refl).
  - left. reflexivity.
  - reflexivity.
  - reflexivity.
  - discriminate.
Defined.

End PacksExtra.
